(** * quicker: a QUIC (draft-12) endpoint in TypeScript

    Shallow embedding of the packet-number codec, the long header
    serializer, the client side of the packet handler, the stream manager,
    the NewReno congestion controller and the alarm, with the properties
    the specification states about them. *)

From Stdlib Require Import ZArith List Lia Bool String Ascii OrdersEx.
From stdpp Require Import base list.
Import ListNotations.

Local Open Scope Z_scope.

(** ** Bignum (types/bignum.ts) *)

Module Bignum.

(** Modelled from the spec: types/bignum.ts is not among the sources; the
    spec calls it a library of arbitrary-precision integers ("packet
    numbers fit in 64 bits; stream IDs and offsets fit in 62 bits"), so a
    Bignum is an integer and each method is the operation it is named
    after. *)
Definition t : Type := Z.

Definition add (a b : t) : t := a + b.
Definition subtract (a b : t) : t := a - b.
Definition shiftLeft (a : t) (n : Z) : t := Z.shiftl a n.
(** Integer division, truncated towards zero. *)
Definition divide (a b : t) : t := Z.quot a b.
Definition and (a b : t) : t := Z.land a b.
(** [mask size] keeps the low [size] bytes: the "truncated bits" of the
    spec's candidate [(largest+1) & ~mask | t]. *)
Definition mask (a : t) (size : Z) : t := Z.land a (Z.ones (8 * size)).
Definition lessThan (a b : t) : bool := a <? b.
Definition lessThanOrEqual (a b : t) : bool := a <=? b.
Definition greaterThan (a b : t) : bool := a >? b.
Definition equals (a b : t) : bool := a =? b.
Definition compare (a b : t) : comparison := a ?= b.
Definition max (a b : t) : t := Z.max a b.

(** A Bignum of [byteSize] bytes as a big-endian buffer, and back. *)
Definition toBuffer (byteSize : nat) (a : t) : list Z :=
  map (fun i => (a / 256 ^ Z.of_nat (byteSize - 1 - i)) mod 256) (seq 0 byteSize).
Definition fromBuffer (buf : list Z) : t :=
  fold_left (fun acc b => acc * 256 + b) buf 0.

Lemma length_toBuffer (byteSize : nat) (a : t) : length (toBuffer byteSize a) = byteSize.
Proof. unfold toBuffer. rewrite length_map, length_seq. reflexivity. Qed.

(** [toString("hex")]: two lower-case digits for each byte. *)
Definition hexDigit (d : Z) : ascii :=
  nth (Z.to_nat d) (list_ascii_of_string "0123456789abcdef") "0"%char.
Definition toHex (byteSize : nat) (a : t) : string :=
  string_of_list_ascii
    (flat_map (fun b => [hexDigit (b / 16); hexDigit (b mod 16)]) (toBuffer byteSize a)).

(** *** Buffers and numbers *)

Lemma toBuffer_S (byteSize : nat) (a : t) :
  toBuffer (S byteSize) a = toBuffer byteSize (a / 256) ++ [a mod 256].
Proof.
  unfold toBuffer. rewrite seq_S, map_app. simpl. f_equal.
  - apply map_ext_in. intros i Hi. apply in_seq in Hi.
    replace (byteSize - 0 - i)%nat with (S (byteSize - 1 - i)) by lia.
    rewrite Nat2Z.inj_succ, Z.pow_succ_r by lia.
    rewrite Z.div_div by lia. reflexivity.
  - replace (byteSize - 0 - byteSize)%nat with 0%nat by lia.
    simpl. rewrite Z.div_1_r. reflexivity.
Qed.

Lemma fromBuffer_snoc (buf : list Z) (b : Z) :
  fromBuffer (buf ++ [b]) = fromBuffer buf * 256 + b.
Proof. unfold fromBuffer. rewrite fold_left_app. reflexivity. Qed.

(** Reading back the [byteSize] bytes written gives the number modulo
    [256 ^ byteSize]. *)
Lemma fromBuffer_toBuffer (byteSize : nat) (a : t) :
  fromBuffer (toBuffer byteSize a) = a mod 256 ^ Z.of_nat byteSize.
Proof.
  revert a. induction byteSize as [| n IH]; intros a.
  - simpl. rewrite Z.mod_1_r. reflexivity.
  - rewrite toBuffer_S, fromBuffer_snoc, IH.
    rewrite Nat2Z.inj_succ, Z.pow_succ_r by lia.
    rewrite (Z.rem_mul_r a 256 (256 ^ Z.of_nat n)) by lia. lia.
Qed.

(** The last [k] of [n] bytes are the [k] bytes of the same number. *)
Lemma skipn_toBuffer (n k : nat) (a : t) :
  (k <= n)%nat -> skipn (n - k) (toBuffer n a) = toBuffer k a.
Proof.
  revert a k. induction n as [| n IH]; intros a k Hk.
  - assert (k = 0%nat) as -> by lia. reflexivity.
  - destruct (Nat.eq_dec k (S n)) as [-> | Hne].
    + rewrite Nat.sub_diag. reflexivity.
    + destruct k as [| k].
      * rewrite Nat.sub_0_r. apply drop_ge. rewrite length_toBuffer. lia.
      * rewrite !toBuffer_S.
        replace (S n - S k)%nat with (n - k)%nat by lia.
        rewrite skipn_app, length_toBuffer.
        replace (n - k - n)%nat with 0%nat by lia.
        simpl. rewrite IH by lia. reflexivity.
Qed.

End Bignum.

(** ** Connection IDs and versions (packet/header/header.properties.ts) *)

Module HeaderProperties.

(** [ConnectionID] and [Version] extend [BaseProperty]: a Bignum, of four
    bytes for a version, and for a connection ID of the length kept
    beside it. *)
Record ConnectionID : Type :=
  mkConnectionID { cid_getValue : Bignum.t; cid_getLength : Z }.

Record Version : Type := mkVersion { version_getValue : Bignum.t }.

Definition cid_toBuffer (c : ConnectionID) : list Z :=
  Bignum.toBuffer (Z.to_nat (cid_getLength c)) (cid_getValue c).

Definition version_toBuffer (v : Version) : list Z :=
  Bignum.toBuffer 4 (version_getValue v).

End HeaderProperties.

(** ** Packet numbers (packet/header/header.properties.ts) *)

Module PacketNumber.

(** [class PacketNumber extends BaseProperty]: the property is a Bignum of
    eight bytes. *)
Record PacketNumber : Type := mkPacketNumber { getValue : Bignum.t }.

Definition ofBuffer (buf : list Z) : PacketNumber :=
  mkPacketNumber (Bignum.fromBuffer buf).

Definition toBuffer (pn : PacketNumber) : list Z :=
  Bignum.toBuffer 8 (getValue pn).

(** [getLeastSignificantBytes(size = 4)]: bytes [8 - size .. 8) of the
    eight-byte buffer, [size] capped at 8; [Buffer.copy] with a source
    range copies that range to the start of a fresh buffer. *)
Definition getLeastSignificantBytes (pn : PacketNumber) (size : nat) : list Z :=
  let size := if (8 <? size)%nat then 8%nat else size in
  firstn size (skipn (8 - size) (toBuffer pn)).

Definition getMostSignificantBytes (pn : PacketNumber) (size : nat) : list Z :=
  let size := if (8 <? size)%nat then 8%nat else size in
  firstn size (toBuffer pn).

Definition getBitSize (size : Z) : Z :=
  if size =? 1 then 7 else if size =? 2 then 14 else 30.

(** The loop of [adjustNumber] that builds [pnMask]: 63 rounds of a left
    shift, adding one while [63 - i > size * 8]. *)
Definition pnMask_step (size : Z) (pnMask : Bignum.t) (i : Z) : Bignum.t :=
  let pnMask := Bignum.shiftLeft pnMask 1 in
  if 63 - i >? size * 8 then Bignum.add pnMask 1 else pnMask.

Definition pnMask (size : Z) : Bignum.t :=
  fold_left (pnMask_step size) (map Z.of_nat (seq 0 63)) 1.

(** [this.adjustNumber(packetNumber, size)]: [this] holds the largest
    packet number seen, [packetNumber] the truncated one. *)
Definition adjustNumber (this packetNumber : PacketNumber) (size : Z) : Bignum.t :=
  let pnMask := pnMask size in
  let expectedPn := Bignum.add (getValue this) 1 in
  let pnWin := Bignum.shiftLeft 1 (getBitSize size) in
  let pnHWin := Bignum.divide pnWin 2 in
  let maskedResult := Bignum.and expectedPn pnMask in
  let candidatePn := Bignum.mask (getValue packetNumber) size in
  let candidatePn := Bignum.add candidatePn maskedResult in
  if Bignum.lessThanOrEqual candidatePn (Bignum.subtract expectedPn pnHWin) then
    Bignum.add candidatePn pnWin
  else if Bignum.greaterThan candidatePn (Bignum.add expectedPn pnHWin)
          && Bignum.greaterThan candidatePn pnWin then
    Bignum.subtract candidatePn pnWin
  else candidatePn.

(** The decoder of the comment above [adjustNumber]
    ([DecodePacketNumber(largest_pn, truncated_pn, pn_nbits)]), where the
    mask is [pn_win - 1]. *)
Definition DecodePacketNumber (largest_pn truncated_pn pn_nbits : Z) : Z :=
  let expected_pn := largest_pn + 1 in
  let pn_win := Z.shiftl 1 pn_nbits in
  let pn_hwin := pn_win / 2 in
  let pn_mask := pn_win - 1 in
  let candidate_pn := Z.lor (Z.land expected_pn (Z.lnot pn_mask)) truncated_pn in
  if candidate_pn <=? expected_pn - pn_hwin then candidate_pn + pn_win
  else if (candidate_pn >? expected_pn + pn_hwin) && (candidate_pn >? pn_win)
  then candidate_pn - pn_win
  else candidate_pn.

(** The wire form of [next] at [size] bytes, read back as a packet number. *)
Definition truncate (next : Z) (size : nat) : PacketNumber :=
  ofBuffer (getLeastSignificantBytes (mkPacketNumber next) size).

Lemma pnMask_1 : pnMask 1 = 2 ^ 64 - 2 ^ 8.
Proof. vm_compute. reflexivity. Qed.

Lemma pnMask_2 : pnMask 2 = 2 ^ 64 - 2 ^ 16.
Proof. vm_compute. reflexivity. Qed.

Lemma pnMask_4 : pnMask 4 = 2 ^ 64 - 2 ^ 32.
Proof. vm_compute. reflexivity. Qed.

Lemma truncate_scenario : getValue (truncate 0xa82f9b32 2) = 0x9b32.
Proof. vm_compute. reflexivity. Qed.

Lemma DecodePacketNumber_scenario :
  DecodePacketNumber 0xa82f30ea 0x9b32 16 = 0xa82f9b32.
Proof. vm_compute. reflexivity. Qed.

(** C1 (the code departs from the claim): with largest = 0xa82f30ea the
    two-byte truncation 0x9b32 of next = 0xa82f9b32 lies within 2^15 of
    largest + 1, yet [adjustNumber] answers 0xa82f5b32: the mask clears
    16 bits while the window is [1 << 14]. *)
Theorem adjustNumber_scenario :
  (Z.abs (0xa82f9b32 - (0xa82f30ea + 1)) <? 2 ^ 15) = true /\
  adjustNumber (mkPacketNumber 0xa82f30ea) (truncate 0xa82f9b32 2) 2 = 0xa82f5b32.
Proof. split; vm_compute; reflexivity. Qed.

(** The same departure at one byte: 0x205 is 21 past the expected 0x1f0,
    and the candidate 0x105 is moved by 128 instead of 256. *)
Lemma adjustNumber_one_byte :
  adjustNumber (mkPacketNumber 0x1ef) (truncate 0x205 1) 1 = 0x185.
Proof. vm_compute. reflexivity. Qed.

(** And at four bytes: 0x205000000 is 0x15000000 past the expected
    0x1f0000000, and the candidate 0x105000000 is moved by 2^30 instead
    of 2^32. *)
Lemma adjustNumber_four_bytes :
  (Z.abs (0x205000000 - (0x1efffffff + 1)) <? 2 ^ 31) = true /\
  adjustNumber (mkPacketNumber 0x1efffffff) (truncate 0x205000000 4) 4 = 0x145000000.
Proof. split; vm_compute; reflexivity. Qed.

(** *** The mask, the truncation and the window *)

Lemma pnMask_fold_set (size : Z) (l : list Z) (v : Bignum.t) :
  (forall i, In i l -> 63 - i > size * 8) ->
  fold_left (pnMask_step size) l v = (v + 1) * 2 ^ Z.of_nat (length l) - 1.
Proof.
  revert v. induction l as [| i l IH]; intros v H.
  - simpl. lia.
  - cbn [fold_left]. rewrite IH by (intros j Hj; apply H; right; exact Hj).
    unfold pnMask_step, Bignum.shiftLeft, Bignum.add.
    destruct (Z.gtb_spec (63 - i) (size * 8)) as [_ | Hle];
      [| specialize (H i (or_introl eq_refl)); lia].
    rewrite Z.shiftl_mul_pow2 by lia.
    cbn [length]. rewrite Nat2Z.inj_succ, Z.pow_succ_r by lia. lia.
Qed.

Lemma pnMask_fold_clear (size : Z) (l : list Z) (v : Bignum.t) :
  (forall i, In i l -> 63 - i <= size * 8) ->
  fold_left (pnMask_step size) l v = v * 2 ^ Z.of_nat (length l).
Proof.
  revert v. induction l as [| i l IH]; intros v H.
  - simpl. lia.
  - cbn [fold_left]. rewrite IH by (intros j Hj; apply H; right; exact Hj).
    unfold pnMask_step, Bignum.shiftLeft, Bignum.add.
    destruct (Z.gtb_spec (63 - i) (size * 8)) as [Hgt | _];
      [specialize (H i (or_introl eq_refl)); lia |].
    rewrite Z.shiftl_mul_pow2 by lia.
    cbn [length]. rewrite Nat2Z.inj_succ, Z.pow_succ_r by lia. lia.
Qed.

(** X1: the loop of [adjustNumber] builds, for every [size], the 64-bit
    mask whose low [size * 8] bits are clear and whose other bits are
    set; the count of clear bits stops at 0 below and at 63 above, so
    bit 63 is always set. *)
Theorem pnMask_closed_form (size : Z) :
  pnMask size = 2 ^ 64 - 2 ^ Z.max 0 (Z.min 63 (size * 8)).
Proof.
  unfold pnMask.
  set (c := Z.max 0 (Z.min 63 (size * 8))).
  assert (Hc : 0 <= c <= 63) by (unfold c; lia).
  set (m := Z.to_nat (63 - c)).
  replace (seq 0 63) with (seq 0 m ++ seq m (63 - m)).
  2: { rewrite <- seq_app. f_equal. unfold m. lia. }
  rewrite map_app, fold_left_app.
  rewrite pnMask_fold_clear.
  2: { intros i Hi. apply in_map_iff in Hi. destruct Hi as [j [<- Hj]].
       apply in_seq in Hj. unfold m, c in *. lia. }
  rewrite pnMask_fold_set.
  2: { intros i Hi. apply in_map_iff in Hi. destruct Hi as [j [<- Hj]].
       apply in_seq in Hj. unfold m, c in *. lia. }
  rewrite !length_map, !length_seq.
  replace (Z.of_nat (63 - m)) with c by (unfold m; lia).
  replace (Z.of_nat m) with (63 - c) by (unfold m; lia).
  assert (Hp : 2 ^ 64 = 2 ^ (63 - c) * 2 * 2 ^ c).
  { replace 64 with (63 - c + 1 + c) at 1 by lia.
    rewrite !Z.pow_add_r by lia. change (2 ^ 1) with 2. reflexivity. }
  rewrite Hp. lia.
Qed.

Lemma land_high_mask (e k : Z) :
  0 <= k <= 63 -> 0 <= e < 2 ^ 64 ->
  Z.land e (2 ^ 64 - 2 ^ k) = e - e mod 2 ^ k.
Proof.
  intros Hk He.
  assert (Hm : 2 ^ 64 - 2 ^ k = Z.ldiff (Z.ones 64) (Z.ones k)).
  { rewrite Z.ldiff_ones_r by lia.
    rewrite Z.shiftl_mul_pow2, Z.shiftr_div_pow2 by lia.
    rewrite Z.ones_div_pow2 by lia. rewrite Z.ones_equiv.
    replace (2 ^ 64) with (2 ^ (64 - k) * 2 ^ k)
      by (rewrite <- Z.pow_add_r by lia; f_equal; lia).
    lia. }
  rewrite Hm, !Z.ldiff_land, Z.land_assoc, Z.land_ones by lia.
  rewrite Z.mod_small by lia.
  rewrite <- Z.ldiff_land, Z.ldiff_ones_r by lia.
  rewrite Z.shiftl_mul_pow2, Z.shiftr_div_pow2 by lia.
  pose proof (Z.div_mod e (2 ^ k)) as Hdm.
  assert (0 < 2 ^ k) by (apply Z.pow_pos_nonneg; lia). lia.
Qed.

Lemma getLeastSignificantBytes_toBuffer (pn : PacketNumber) (size : nat) :
  (size <= 8)%nat ->
  getLeastSignificantBytes pn size = Bignum.toBuffer size (getValue pn).
Proof.
  intros Hs. unfold getLeastSignificantBytes, toBuffer.
  destruct (Nat.ltb_spec 8 size); [lia |].
  rewrite Bignum.skipn_toBuffer by exact Hs.
  apply firstn_all2. rewrite Bignum.length_toBuffer. lia.
Qed.

(** X3: truncation keeps the number modulo [256 ^ size].  The [size] low
    bytes of a packet number are [size] bytes, and read back as a packet
    number they hold the value modulo [256 ^ size]; asking for more than
    eight bytes gives the eight there are. *)
Theorem truncate_value (next : Z) (size : nat) :
  length (getLeastSignificantBytes (mkPacketNumber next) size) = Nat.min size 8 /\
  getValue (truncate next size) = next mod 256 ^ Z.of_nat (Nat.min size 8).
Proof.
  unfold truncate, ofBuffer. cbn [getValue].
  destruct (Nat.le_gt_cases size 8) as [Hs | Hs].
  - rewrite Nat.min_l by exact Hs.
    rewrite getLeastSignificantBytes_toBuffer by exact Hs.
    rewrite Bignum.length_toBuffer, Bignum.fromBuffer_toBuffer. auto.
  - rewrite Nat.min_r by lia.
    unfold getLeastSignificantBytes, toBuffer.
    destruct (Nat.ltb_spec 8 size); [| lia].
    cbn [getValue]. rewrite Nat.sub_diag.
    change (drop 0 (Bignum.toBuffer 8 next)) with (Bignum.toBuffer 8 next).
    rewrite firstn_all2 by (rewrite Bignum.length_toBuffer; lia).
    rewrite Bignum.length_toBuffer, Bignum.fromBuffer_toBuffer. auto.
Qed.

(** X4: the most significant [k] bytes followed by the least significant
    [8 - k] bytes are the eight bytes of the packet number. *)
Theorem significantBytes_split (pn : PacketNumber) (k : nat) :
  (k <= 8)%nat ->
  getMostSignificantBytes pn k ++ getLeastSignificantBytes pn (8 - k) = toBuffer pn.
Proof.
  intros Hk. unfold getMostSignificantBytes, getLeastSignificantBytes.
  destruct (Nat.ltb_spec 8 k); [lia |].
  destruct (Nat.ltb_spec 8 (8 - k)); [lia |].
  replace (8 - (8 - k))%nat with k by lia.
  rewrite (firstn_all2 (n := (8 - k)%nat)).
  - apply firstn_skipn.
  - rewrite length_skipn. unfold toBuffer. rewrite Bignum.length_toBuffer. lia.
Qed.

Lemma significantBytes_split_witness :
  getMostSignificantBytes (mkPacketNumber 0xa82f9b32) 6
  ++ getLeastSignificantBytes (mkPacketNumber 0xa82f9b32) (8 - 6)
  = toBuffer (mkPacketNumber 0xa82f9b32).
Proof. apply (significantBytes_split (mkPacketNumber 0xa82f9b32) 6). lia. Defined.

(** X2: where [adjustNumber] is right.  At a wire width of 1, 2 or 4
    bytes, a packet number that shares with [largest + 1] all the bits
    above the low [size] bytes and lies within half a window of it
    ([1 << getBitSize(size)] being the window) is recovered from its
    truncation. *)
Theorem adjustNumber_recovers (largest next size : Z) :
  size = 1 \/ size = 2 \/ size = 4 ->
  0 <= largest + 1 < 2 ^ 64 ->
  next / 2 ^ (8 * size) = (largest + 1) / 2 ^ (8 * size) ->
  largest + 1 - 2 ^ (getBitSize size - 1) < next
    <= largest + 1 + 2 ^ (getBitSize size - 1) ->
  adjustNumber (mkPacketNumber largest) (truncate next (Z.to_nat size)) size = next.
Proof.
  intros Hsize He Hblock Hwin.
  assert (Hmask : pnMask size = 2 ^ 64 - 2 ^ (8 * size)).
  { destruct Hsize as [-> | [-> | ->]];
      [exact pnMask_1 | exact pnMask_2 | exact pnMask_4]. }
  assert (Htrunc : getValue (truncate next (Z.to_nat size)) = next mod 2 ^ (8 * size)).
  { unfold truncate, ofBuffer. cbn [getValue].
    rewrite getLeastSignificantBytes_toBuffer by lia.
    rewrite Bignum.fromBuffer_toBuffer. cbn [getValue].
    destruct Hsize as [-> | [-> | ->]]; reflexivity. }
  assert (Hpos : 0 < 2 ^ (8 * size)) by (apply Z.pow_pos_nonneg; lia).
  unfold adjustNumber. rewrite Hmask, Htrunc. cbn [getValue].
  unfold Bignum.mask, Bignum.and, Bignum.add, Bignum.subtract, Bignum.divide,
    Bignum.shiftLeft, Bignum.lessThanOrEqual, Bignum.greaterThan.
  rewrite Z.land_ones by lia.
  rewrite Z.mod_mod by lia.
  rewrite land_high_mask by lia.
  assert (Hcand : next mod 2 ^ (8 * size)
                  + (largest + 1 - (largest + 1) mod 2 ^ (8 * size)) = next).
  { pose proof (Z.div_mod next (2 ^ (8 * size))).
    pose proof (Z.div_mod (largest + 1) (2 ^ (8 * size))).
    rewrite Hblock in *. lia. }
  rewrite Hcand.
  assert (Hhalf : Z.quot (Z.shiftl 1 (getBitSize size)) 2 = 2 ^ (getBitSize size - 1)).
  { destruct Hsize as [-> | [-> | ->]]; reflexivity. }
  rewrite Hhalf.
  destruct (Z.leb_spec next (largest + 1 - 2 ^ (getBitSize size - 1))); [lia |].
  destruct (Z.gtb_spec next (largest + 1 + 2 ^ (getBitSize size - 1))); [lia |].
  reflexivity.
Qed.

Lemma adjustNumber_recovers_witness :
  adjustNumber (mkPacketNumber 0xa82f30ea) (truncate 0xa82f3b32 (Z.to_nat 2)) 2
  = 0xa82f3b32.
Proof.
  apply (adjustNumber_recovers 0xa82f30ea 0xa82f3b32 2).
  - right. left. reflexivity.
  - lia.
  - reflexivity.
  - vm_compute. split; [reflexivity | discriminate].
Defined.

End PacketNumber.

(** ** Endpoint role (types/endpoint.type.ts) *)

Inductive EndpointType : Type := Client | Server.

(** ** Error codes (utilities/errors) *)

Module Errors.

(** Modelled from the spec: quic.codes.ts and quicker.codes.ts are not
    among the sources; the codes are the two taxonomies of the spec's
    error-handling section, wire-visible and local. *)
Inductive ConnectionErrorCodes : Type :=
| NO_ERROR | INTERNAL_ERROR | SERVER_BUSY | FLOW_CONTROL_ERROR
| STREAM_ID_ERROR | STREAM_STATE_ERROR | FINAL_OFFSET_ERROR
| FRAME_ENCODING_ERROR | TRANSPORT_PARAMETER_ERROR
| VERSION_NEGOTIATION_ERROR | PROTOCOL_VIOLATION.

Inductive QuickerErrorCodes : Type :=
| IGNORE_PACKET_ERROR | DECRYPTION_FAILURE | TIMEOUT.

(** What a [throw] carries: [new QuicError(code, _)] or
    [new QuickerError(code, _)]. *)
Inductive Error : Type :=
| QuicError (code : ConnectionErrorCodes)
| QuickerError (code : QuickerErrorCodes).

End Errors.

(** ** The packet handler (utilities/handlers/packet.handler.ts) *)

Module PacketHandler.
Import Errors HeaderProperties.

Definition ConnectionID_eqb (a b : ConnectionID) : bool :=
  (cid_getValue a =? cid_getValue b) && (cid_getLength a =? cid_getLength b).

Definition dest_eqb (a b : option ConnectionID) : bool :=
  match a, b with
  | None, None => true
  | Some x, Some y => ConnectionID_eqb x y
  | _, _ => false
  end.

(** JavaScript's [>] on strings: code units left to right, a proper
    prefix being the smaller. *)
Definition string_gt (a b : string) : bool :=
  match String_as_OT.compare a b with Gt => true | _ => false end.

(** [Array.prototype.indexOf]: the first index holding [s], or -1. *)
Fixpoint indexOf_from (l : list string) (s : string) (i : Z) : Z :=
  match l with
  | [] => -1
  | x :: l' => if String.eqb x s then i else indexOf_from l' s (i + 1)
  end.

Definition indexOf (l : list string) (s : string) : Z := indexOf_from l s 0.

Section Handler.

(** [BaseProperty.toString], the hexadecimal text of the Bignum; the
    local list [Constants.SUPPORTED_VERSIONS]; the frames of a packet and
    the part of the connection the handlers below never read. *)
Variable toString : Version -> string.
Variable SUPPORTED_VERSIONS : list string.
Context {BaseFrame Others : Type}.

(** Modelled from the spec: quicker/connection.ts is not among the
    sources; the Connection "owns endpoint role; negotiated version;
    initial version; local and remote connection IDs", to which the
    handlers add the retry flag they set and read. *)
Record Connection : Type := mkConnection {
  getEndpointType : EndpointType;
  getVersion : Version;
  getInitialVersion : Version;
  getInitialDestConnectionID : ConnectionID;
  getSrcConnectionID : ConnectionID;
  getDestConnectionID : option ConnectionID;
  getRetrySent : bool;
  getOthers : Others
}.

Definition setDestConnectionID (connectionID : ConnectionID) (c : Connection) : Connection :=
  mkConnection (getEndpointType c) (getVersion c) (getInitialVersion c)
    (getInitialDestConnectionID c) (getSrcConnectionID c) (Some connectionID)
    (getRetrySent c) (getOthers c).

Definition setRetrySent (b : bool) (c : Connection) : Connection :=
  mkConnection (getEndpointType c) (getVersion c) (getInitialVersion c)
    (getInitialDestConnectionID c) (getSrcConnectionID c) (getDestConnectionID c)
    b (getOthers c).

(** A method on the connection that returns nothing and may throw: the
    connection as the call leaves it, and the error thrown, if any. *)
Definition Action : Type := Connection -> Connection * option Error.

Definition skip : Action := fun c => (c, None).
Definition throw (e : Error) : Action := fun c => (c, Some e).
Definition andThen (f g : Action) : Action :=
  fun c => match f c with
           | (c', None) => g c'
           | (c', Some e) => (c', Some e)
           end.

Notation "f >>> g" := (andThen f g) (at level 62, right associativity).

(** The collaborators whose files are not among the sources. *)
Variable frameHandler_handle : BaseFrame -> Action.
Variable resetConnection : Version -> Action.
Variable resetConnectionState : Action.

Record VersionNegotiationHeader : Type := mkVersionNegotiationHeader {
  vn_getSrcConnectionID : ConnectionID;
  vn_getDestConnectionID : ConnectionID
}.

Record VersionNegotiationPacket : Type := mkVersionNegotiationPacket {
  vn_getHeader : VersionNegotiationHeader;
  getVersions : list Version
}.

(** A Retry or Handshake packet: the source connection ID of its long
    header and its frames. *)
Record LongHeaderPacket : Type := mkLongHeaderPacket {
  getSrcConnectionID_of : ConnectionID;
  getFrames : list BaseFrame
}.

(** The first [forEach] of [handleVersionNegotiationPacket]. *)
Definition containsChosenVersion (c : Connection) (versions : list Version) : bool :=
  fold_left
    (fun contains version =>
       contains || String.eqb (toString version) (toString (getInitialVersion c)))
    versions false.

(** The body of its second [forEach]. *)
Definition negotiate (negotiatedVersion : option Version) (version : Version) : option Version :=
  let index := indexOf SUPPORTED_VERSIONS (toString version) in
  if index >? -1 then
    match negotiatedVersion with
    | None => Some version
    | Some negotiated =>
        if string_gt (toString version) (toString negotiated)
        then Some version else Some negotiated
    end
  else negotiatedVersion.

Definition differs (a b : ConnectionID) : bool :=
  match Bignum.compare (cid_getValue a) (cid_getValue b) with
  | Eq => false
  | _ => true
  end.

Definition handleVersionNegotiationPacket
    (versionNegotiationPacket : VersionNegotiationPacket) : Action :=
  fun connection =>
  if negb (String.eqb (toString (getVersion connection))
                      (toString (getInitialVersion connection)))
  then skip connection
  else
    let versionNegotiationHeader := vn_getHeader versionNegotiationPacket in
    if differs (getInitialDestConnectionID connection)
               (vn_getSrcConnectionID versionNegotiationHeader)
       || differs (getSrcConnectionID connection)
                  (vn_getDestConnectionID versionNegotiationHeader)
    then throw (QuicError VERSION_NEGOTIATION_ERROR) connection
    else if containsChosenVersion connection (getVersions versionNegotiationPacket)
    then skip connection
    else
      match fold_left negotiate (getVersions versionNegotiationPacket) None with
      | None => throw (QuicError VERSION_NEGOTIATION_ERROR) connection
      | Some negotiatedVersion => resetConnection negotiatedVersion connection
      end.

Fixpoint handleFrames (frames : list BaseFrame) : Action :=
  match frames with
  | [] => skip
  | baseFrame :: frames' => frameHandler_handle baseFrame >>> handleFrames frames'
  end.

Definition handleRetryPacket (retryPacket : LongHeaderPacket) : Action :=
  let connectionID := getSrcConnectionID_of retryPacket in
  (fun connection =>
     match getEndpointType connection with
     | Client =>
         match getDestConnectionID connection with
         | None => skip (setRetrySent true (setDestConnectionID connectionID connection))
         | Some dest =>
             if differs dest connectionID
             then throw (QuickerError IGNORE_PACKET_ERROR) connection
             else skip connection
         end
     | Server => skip connection
     end) >>>
  handleFrames (getFrames retryPacket) >>>
  resetConnectionState.

Definition handleHandshakePacket (handshakePacket : LongHeaderPacket) : Action :=
  let connectionID := getSrcConnectionID_of handshakePacket in
  (fun connection =>
     match getEndpointType connection with
     | Client =>
         match getDestConnectionID connection with
         | None => skip (setRetrySent false (setDestConnectionID connectionID connection))
         | Some dest =>
             if getRetrySent connection
             then skip (setRetrySent false (setDestConnectionID connectionID connection))
             else if differs dest connectionID
             then throw (QuickerError IGNORE_PACKET_ERROR) connection
             else skip connection
         end
     | Server => skip connection
     end) >>>
  handleFrames (getFrames handshakePacket).

(** A run of Retry and Handshake packets: each goes through its handler,
    and whoever called [handle] keeps the connection object whether the
    handler returned or threw. *)
Inductive Packet : Type :=
| Retry (p : LongHeaderPacket)
| Handshake (p : LongHeaderPacket).

Definition isRetry (pk : Packet) : bool :=
  match pk with Retry _ => true | Handshake _ => false end.

Definition isHandshake (pk : Packet) : bool :=
  match pk with Retry _ => false | Handshake _ => true end.

Definition receive (c : Connection) (pk : Packet) : Connection :=
  match pk with
  | Retry p => fst (handleRetryPacket p c)
  | Handshake p => fst (handleHandshakePacket p c)
  end.

Definition run (c : Connection) (pks : list Packet) : Connection :=
  fold_left receive pks c.

(** How many packets of one kind left the connection with another
    destination connection ID than they found. *)
Fixpoint replacements (kind : Packet -> bool) (c : Connection) (pks : list Packet) : nat :=
  match pks with
  | [] => 0%nat
  | pk :: pks' =>
      ((if kind pk && negb (dest_eqb (getDestConnectionID c)
                                     (getDestConnectionID (receive c pk)))
        then 1 else 0)
       + replacements kind (receive c pk) pks')%nat
  end.

(** An action that leaves role, destination connection ID and retry flag
    as they were. *)
Definition keeps_ids (a : Action) : Prop :=
  forall c,
    getEndpointType (fst (a c)) = getEndpointType c /\
    getDestConnectionID (fst (a c)) = getDestConnectionID c /\
    getRetrySent (fst (a c)) = getRetrySent c.

(** *** Version negotiation *)

Definition supported (v : Version) : Prop := In (toString v) SUPPORTED_VERSIONS.

(** [a] is not above [b] in the order of [string_gt]. *)
Definition string_le (a b : string) : Prop := String_as_OT.compare a b <> Gt.

(** The connection IDs of the packet echo the client's: its source is the
    initial destination, its destination the client's source. *)
Definition echoes (p : VersionNegotiationPacket) (c : Connection) : Prop :=
  cid_getValue (getInitialDestConnectionID c)
    = cid_getValue (vn_getSrcConnectionID (vn_getHeader p)) /\
  cid_getValue (getSrcConnectionID c)
    = cid_getValue (vn_getDestConnectionID (vn_getHeader p)).

Lemma string_le_iff (a b : string) :
  string_le a b <-> a = b \/ String_as_OT.lt a b.
Proof.
  unfold string_le.
  pose proof String_as_OT.lt_strorder as [Hirr Htr].
  destruct (String_as_OT.compare_spec a b) as [He | Hl | Hg].
  - split; [intros _; left; exact He | intros _; discriminate].
  - split; [intros _; right; exact Hl | intros _; discriminate].
  - split; [intros H; contradiction H; reflexivity |].
    intros [-> | Hl] _.
    + exact (Hirr _ Hg).
    + exact (Hirr _ (Htr _ _ _ Hl Hg)).
Qed.

Lemma string_le_refl (a : string) : string_le a a.
Proof. apply string_le_iff. left. reflexivity. Qed.

Lemma string_le_trans (a b c : string) :
  string_le a b -> string_le b c -> string_le a c.
Proof.
  rewrite !string_le_iff.
  pose proof String_as_OT.lt_strorder as [_ Htr].
  intros [-> | Hab] [-> | Hbc]; auto.
  right. exact (Htr _ _ _ Hab Hbc).
Qed.

Lemma string_gt_true (a b : string) : string_gt a b = true -> string_le b a.
Proof.
  unfold string_gt. intros H. apply string_le_iff.
  destruct (String_as_OT.compare_spec a b) as [He | Hl | Hg];
    try discriminate.
  right. exact Hg.
Qed.

Lemma string_gt_false (a b : string) : string_gt a b = false -> string_le a b.
Proof.
  unfold string_gt, string_le. intros H Hc. rewrite Hc in H. discriminate.
Qed.

Lemma indexOf_from_found (l : list string) (s : string) (i : Z) :
  0 <= i -> (indexOf_from l s i >? -1) = true <-> In s l.
Proof.
  revert i. induction l as [| x l IH]; intros i Hi; simpl.
  - split; [discriminate | tauto].
  - destruct (String.eqb_spec x s) as [-> | Hne].
    + split; [auto | intros _; lia].
    + rewrite IH by lia. split; [auto | intros [He | Hin]; [contradiction | exact Hin]].
Qed.

Lemma indexOf_found (l : list string) (s : string) :
  (indexOf l s >? -1) = true <-> In s l.
Proof. apply indexOf_from_found. lia. Qed.

Lemma contains_fold (chosen : string) (vs : list Version) (acc : bool) :
  fold_left (fun contains version => contains || String.eqb (toString version) chosen)
            vs acc
  = acc || existsb (fun v => String.eqb (toString v) chosen) vs.
Proof.
  revert acc. induction vs as [| v vs IH]; intros acc; simpl.
  - rewrite orb_false_r. reflexivity.
  - rewrite IH. rewrite orb_assoc. reflexivity.
Qed.

Lemma containsChosenVersion_true (c : Connection) (vs : list Version) :
  containsChosenVersion c vs = true
  <-> exists v, In v vs /\ toString v = toString (getInitialVersion c).
Proof.
  unfold containsChosenVersion. rewrite contains_fold. simpl.
  rewrite existsb_exists. split; intros [v [Hin Hv]]; exists v; split; auto.
  - apply String.eqb_eq. exact Hv.
  - apply String.eqb_eq. exact Hv.
Qed.

(** What the second [forEach] leaves in [negotiatedVersion]. *)
Lemma negotiate_fold (vs : list Version) (acc : option Version) :
  match fold_left negotiate vs acc with
  | None => acc = None /\ forall v, In v vs -> ~ supported v
  | Some n =>
      (acc = Some n \/ (In n vs /\ supported n)) /\
      (forall v, In v vs -> supported v -> string_le (toString v) (toString n)) /\
      (forall a, acc = Some a -> string_le (toString a) (toString n))
  end.
Proof.
  revert acc. induction vs as [| v vs IH]; intros acc; simpl.
  - destruct acc as [a |].
    + split; [left; reflexivity |]. split; [tauto |].
      intros a' [= ->]. apply string_le_refl.
    + split; [reflexivity | tauto].
  - specialize (IH (negotiate acc v)).
    destruct (fold_left negotiate vs (negotiate acc v)) as [n |].
    + destruct IH as [Horigin [Hmax Hacc]].
      unfold negotiate in Horigin, Hacc.
      destruct (indexOf SUPPORTED_VERSIONS (toString v) >? -1) eqn:Hidx.
      * apply indexOf_found in Hidx.
        assert (Hv : string_le (toString v) (toString n) /\
                     forall a, acc = Some a -> string_le (toString a) (toString n)).
        { destruct acc as [a |].
          - destruct (string_gt (toString v) (toString a)) eqn:Hgt.
            + split; [apply Hacc; reflexivity |].
              intros a' [= <-].
              apply string_le_trans with (toString v);
                [apply string_gt_true; exact Hgt | apply Hacc; reflexivity].
            + split.
              * apply string_le_trans with (toString a);
                  [apply string_gt_false; exact Hgt | apply Hacc; reflexivity].
              * intros a' [= <-]. apply Hacc. reflexivity.
          - split; [apply Hacc; reflexivity | discriminate]. }
        destruct Hv as [Hvn Haccn].
        split; [| split].
        -- destruct Horigin as [Ho | [Hin Hs]]; [| right; split; [right |]; assumption].
           destruct acc as [a |].
           ++ destruct (string_gt (toString v) (toString a)).
              ** injection Ho as <-. right. split; [left; reflexivity | exact Hidx].
              ** left. exact Ho.
           ++ injection Ho as <-. right. split; [left; reflexivity | exact Hidx].
        -- intros v' [<- | Hin] Hs; [exact Hvn | apply Hmax; assumption].
        -- exact Haccn.
      * split; [| split].
        -- destruct Horigin as [Ho | [Hin Hs]]; [left; exact Ho | right; split; [right |]; assumption].
        -- intros v' [<- | Hin] Hs; [| apply Hmax; assumption].
           unfold supported in Hs. apply indexOf_found in Hs. congruence.
        -- exact Hacc.
    + destruct IH as [Hnone Hno].
      unfold negotiate in Hnone.
      destruct (indexOf SUPPORTED_VERSIONS (toString v) >? -1) eqn:Hidx.
      * destruct acc as [a |]; [destruct (string_gt _ _) |]; discriminate.
      * split; [exact Hnone |].
        intros v' [<- | Hin]; [| apply Hno; exact Hin].
        unfold supported. intros Hs. apply indexOf_found in Hs. congruence.
Qed.

Lemma differs_false (a b : ConnectionID) :
  differs a b = false <-> cid_getValue a = cid_getValue b.
Proof.
  unfold differs, Bignum.compare.
  destruct (Z.compare_spec (cid_getValue a) (cid_getValue b)); split;
    intros; try discriminate; try lia; reflexivity.
Qed.

Lemma differs_true (a b : ConnectionID) :
  differs a b = true <-> cid_getValue a <> cid_getValue b.
Proof.
  rewrite <- differs_false. destruct (differs a b); split; congruence.
Qed.

(** C2 (amended): what a client does with a Version Negotiation packet.
    A packet that arrives after the version has changed has no effect;
    connection IDs whose values do not echo the values of the client's
    raise VERSION_NEGOTIATION_ERROR (the lengths are not compared); a
    list that holds the chosen version is ignored; otherwise the
    connection is reset to the highest version string that the list and
    the local list share, and VERSION_NEGOTIATION_ERROR is raised when
    they share none. *)
Theorem handleVersionNegotiationPacket_spec
    (p : VersionNegotiationPacket) (c : Connection) :
  let chosen := toString (getInitialVersion c) in
  let handled := handleVersionNegotiationPacket p c in
  (toString (getVersion c) <> chosen -> handled = (c, None)) /\
  (toString (getVersion c) = chosen -> ~ echoes p c ->
   handled = (c, Some (QuicError VERSION_NEGOTIATION_ERROR))) /\
  (toString (getVersion c) = chosen -> echoes p c ->
   (exists v, In v (getVersions p) /\ toString v = chosen) ->
   handled = (c, None)) /\
  (toString (getVersion c) = chosen -> echoes p c ->
   (forall v, In v (getVersions p) -> toString v <> chosen) ->
   (exists v, In v (getVersions p) /\ supported v) ->
   exists n,
     In n (getVersions p) /\ supported n /\
     (forall v, In v (getVersions p) -> supported v ->
                string_le (toString v) (toString n)) /\
     handled = resetConnection n c) /\
  (toString (getVersion c) = chosen -> echoes p c ->
   (forall v, In v (getVersions p) -> toString v <> chosen) ->
   (forall v, In v (getVersions p) -> ~ supported v) ->
   handled = (c, Some (QuicError VERSION_NEGOTIATION_ERROR))).
Proof.
  intros chosen handled. subst chosen handled.
  unfold handleVersionNegotiationPacket, echoes, skip, throw.
  destruct (String.eqb_spec (toString (getVersion c)) (toString (getInitialVersion c)))
    as [Hsame | Hchanged]; simpl.
  2: { repeat split; intros; try contradiction; reflexivity. }
  split; [intros H; contradiction |].
  destruct (differs (getInitialDestConnectionID c) _) eqn:Hd1; simpl.
  { apply differs_true in Hd1.
    repeat split; intros; try reflexivity; try (exfalso; tauto). }
  destruct (differs (getSrcConnectionID c) _) eqn:Hd2; simpl.
  { apply differs_true in Hd2.
    repeat split; intros; try reflexivity; try (exfalso; tauto). }
  apply differs_false in Hd1. apply differs_false in Hd2.
  split; [intros _ Hne; exfalso; apply Hne; split; assumption |].
  destruct (containsChosenVersion c (getVersions p)) eqn:Hc.
  { apply containsChosenVersion_true in Hc. destruct Hc as [v [Hin Hv]].
    split; [reflexivity |].
    split; intros _ _ Hno; exfalso; exact (Hno v Hin Hv). }
  assert (Hnone : forall v, In v (getVersions p) ->
                            toString v <> toString (getInitialVersion c)).
  { intros v Hin Hv.
    assert (containsChosenVersion c (getVersions p) = true) as Ht
      by (apply containsChosenVersion_true; exists v; auto).
    congruence. }
  split.
  { intros _ _ [v [Hin Hv]]. exfalso. exact (Hnone v Hin Hv). }
  pose proof (negotiate_fold (getVersions p) None) as Hfold.
  destruct (fold_left negotiate (getVersions p) None) as [n |].
  - destruct Hfold as [[Ho | [Hin Hs]] [Hmax _]]; [discriminate |].
    split.
    + intros _ _ _ _. exists n. repeat split; assumption.
    + intros _ _ _ Hno. exfalso. exact (Hno n Hin Hs).
  - destruct Hfold as [_ Hno].
    split.
    + intros _ _ _ [v [Hin Hs]]. exfalso. exact (Hno v Hin Hs).
    + intros _ _ _ _. reflexivity.
Qed.

(** *** Connection-ID discipline *)

Section Discipline.

(** The frame handler and the state reset act on streams, offsets and
    acknowledgements, not on the connection IDs. *)
Hypothesis frameHandler_keeps_ids : forall f, keeps_ids (frameHandler_handle f).
Hypothesis resetConnectionState_keeps_ids : keeps_ids resetConnectionState.

Definition ids (c : Connection) : EndpointType * option ConnectionID * bool :=
  (getEndpointType c, getDestConnectionID c, getRetrySent c).

Lemma keeps_ids_ids (a : Action) : keeps_ids a -> forall c, ids (fst (a c)) = ids c.
Proof.
  intros H c. destruct (H c) as [He [Hd Hr]]. unfold ids. congruence.
Qed.

Lemma ids_keeps_ids (a : Action) : (forall c, ids (fst (a c)) = ids c) -> keeps_ids a.
Proof.
  intros H c. specialize (H c). unfold ids in H. injection H. auto.
Qed.

Lemma ids_inv (c : Connection) (x : EndpointType * option ConnectionID * bool) :
  ids c = x ->
  getEndpointType c = fst (fst x) /\
  getDestConnectionID c = snd (fst x) /\
  getRetrySent c = snd x.
Proof. intros <-. unfold ids. simpl. auto. Qed.

Lemma andThen_ids (f g : Action) (c : Connection) :
  keeps_ids g -> ids (fst ((f >>> g) c)) = ids (fst (f c)).
Proof.
  intros Hg. unfold andThen. destruct (f c) as [c' [e |]]; simpl.
  - reflexivity.
  - apply keeps_ids_ids. exact Hg.
Qed.

Lemma andThen_keeps_ids (f g : Action) :
  keeps_ids f -> keeps_ids g -> keeps_ids (f >>> g).
Proof.
  intros Hf Hg. apply ids_keeps_ids. intros c.
  rewrite andThen_ids by exact Hg. apply keeps_ids_ids. exact Hf.
Qed.

Lemma handleFrames_keeps_ids (frames : list BaseFrame) : keeps_ids (handleFrames frames).
Proof.
  induction frames as [| f frames IH]; simpl.
  - intros c. simpl. auto.
  - apply andThen_keeps_ids; [apply frameHandler_keeps_ids | exact IH].
Qed.

Lemma andThen_throw (f g : Action) (c c' : Connection) (e : Error) :
  f c = (c', Some e) -> (f >>> g) c = (c', Some e).
Proof. intros H. unfold andThen. rewrite H. reflexivity. Qed.

(** The connection-ID state a Retry leaves at a client. *)
Lemma receive_Retry_ids (c : Connection) (p : LongHeaderPacket) :
  getEndpointType c = Client ->
  ids (receive c (Retry p)) =
    match getDestConnectionID c with
    | None => (Client, Some (getSrcConnectionID_of p), true)
    | Some dest => (Client, Some dest, getRetrySent c)
    end.
Proof.
  intros Hc. simpl. unfold handleRetryPacket.
  rewrite andThen_ids.
  2: { apply andThen_keeps_ids;
       [apply handleFrames_keeps_ids | exact resetConnectionState_keeps_ids]. }
  rewrite Hc. destruct (getDestConnectionID c) as [dest |] eqn:Hd.
  - destruct (differs dest _); simpl; unfold ids; rewrite Hc, Hd; reflexivity.
  - simpl. unfold ids. simpl. rewrite Hc. reflexivity.
Qed.

(** The connection-ID state a Handshake leaves at a client. *)
Lemma receive_Handshake_ids (c : Connection) (p : LongHeaderPacket) :
  getEndpointType c = Client ->
  ids (receive c (Handshake p)) =
    match getDestConnectionID c with
    | None => (Client, Some (getSrcConnectionID_of p), false)
    | Some dest =>
        if getRetrySent c then (Client, Some (getSrcConnectionID_of p), false)
        else (Client, Some dest, false)
    end.
Proof.
  intros Hc. simpl. unfold handleHandshakePacket.
  rewrite andThen_ids by apply handleFrames_keeps_ids.
  rewrite Hc. destruct (getDestConnectionID c) as [dest |] eqn:Hd.
  - destruct (getRetrySent c) eqn:Hr.
    + simpl. unfold ids. simpl. rewrite Hc. reflexivity.
    + destruct (differs dest _); simpl; unfold ids; rewrite Hc, Hd, Hr; reflexivity.
  - simpl. unfold ids. simpl. rewrite Hc. reflexivity.
Qed.

Lemma receive_Server (c : Connection) (pk : Packet) :
  getEndpointType c = Server -> ids (receive c pk) = ids c.
Proof.
  intros Hs. destruct pk as [p | p]; simpl.
  - unfold handleRetryPacket. rewrite andThen_ids.
    2: { apply andThen_keeps_ids;
         [apply handleFrames_keeps_ids | exact resetConnectionState_keeps_ids]. }
    rewrite Hs. reflexivity.
  - unfold handleHandshakePacket.
    rewrite andThen_ids by apply handleFrames_keeps_ids.
    rewrite Hs. reflexivity.
Qed.

Lemma ConnectionID_eqb_refl (a : ConnectionID) : ConnectionID_eqb a a = true.
Proof. unfold ConnectionID_eqb. rewrite !Z.eqb_refl. reflexivity. Qed.

Lemma dest_eqb_refl (a : option ConnectionID) : dest_eqb a a = true.
Proof. destruct a; simpl; [apply ConnectionID_eqb_refl | reflexivity]. Qed.

(** Learned and past the first Handshake: some destination ID is set and
    no Retry is waiting for its Handshake. *)
Definition locked (c : Connection) : Prop :=
  getEndpointType c = Client /\
  (exists dest, getDestConnectionID c = Some dest) /\
  getRetrySent c = false.

Definition learned (c : Connection) : Prop :=
  getEndpointType c = Client /\ exists dest, getDestConnectionID c = Some dest.

Lemma receive_locked (c : Connection) (pk : Packet) :
  locked c ->
  locked (receive c pk) /\
  getDestConnectionID (receive c pk) = getDestConnectionID c.
Proof.
  intros [Hc [[dest Hd] Hr]].
  assert (H : ids (receive c pk) = (Client, Some dest, false)).
  { destruct pk as [p | p].
    - rewrite (receive_Retry_ids c p Hc), Hd, Hr. reflexivity.
    - rewrite (receive_Handshake_ids c p Hc), Hd, Hr. reflexivity. }
  apply ids_inv in H. cbn [fst snd] in H. destruct H as [He [Hd' Hr']].
  unfold locked. rewrite He, Hd', Hr', Hd. eauto.
Qed.

Lemma receive_Handshake_locked (c : Connection) (p : LongHeaderPacket) :
  getEndpointType c = Client -> locked (receive c (Handshake p)).
Proof.
  intros Hc. pose proof (receive_Handshake_ids c p Hc) as H.
  unfold locked.
  destruct (getDestConnectionID c) as [dest |]; [destruct (getRetrySent c) |];
    apply ids_inv in H; cbn [fst snd] in H; destruct H as [-> [-> ->]]; eauto.
Qed.

Lemma receive_learned (c : Connection) (pk : Packet) :
  getEndpointType c = Client -> learned (receive c pk).
Proof.
  intros Hc. destruct pk as [p | p].
  - pose proof (receive_Retry_ids c p Hc) as H. unfold learned.
    destruct (getDestConnectionID c) as [dest |];
      apply ids_inv in H; cbn [fst snd] in H; destruct H as [-> [-> _]]; eauto.
  - destruct (receive_Handshake_locked c p Hc) as [He [Hd _]].
    split; assumption.
Qed.

Lemma receive_Retry_learned (c : Connection) (p : LongHeaderPacket) :
  learned c ->
  learned (receive c (Retry p)) /\
  getDestConnectionID (receive c (Retry p)) = getDestConnectionID c /\
  getRetrySent (receive c (Retry p)) = getRetrySent c.
Proof.
  intros [Hc [dest Hd]].
  pose proof (receive_Retry_ids c p Hc) as H. rewrite Hd in H.
  apply ids_inv in H. cbn [fst snd] in H. destruct H as [He [Hd' Hr']].
  unfold learned. rewrite He, Hd', Hr', Hd. eauto.
Qed.

Lemma run_locked (pks : list Packet) (c : Connection) :
  locked c -> locked (run c pks).
Proof.
  revert c. induction pks as [| pk pks IH]; intros c Hl; simpl.
  - exact Hl.
  - apply IH. apply receive_locked. exact Hl.
Qed.

Lemma run_learned (pks : list Packet) (c : Connection) :
  learned c -> learned (run c pks).
Proof.
  revert c. induction pks as [| pk pks IH]; intros c Hl; simpl.
  - exact Hl.
  - apply IH. apply receive_learned. apply Hl.
Qed.

Lemma run_app (c : Connection) (pks pks' : list Packet) :
  run c (pks ++ pks') = run (run c pks) pks'.
Proof. unfold run. apply fold_left_app. Qed.

Lemma run_Client (pks : list Packet) (c : Connection) :
  getEndpointType c = Client -> getEndpointType (run c pks) = Client.
Proof.
  revert c. induction pks as [| pk pks IH]; intros c Hc; simpl.
  - exact Hc.
  - apply IH. apply (receive_learned c pk Hc).
Qed.

(** Once locked, no packet replaces the destination ID. *)
Lemma replacements_locked (kind : Packet -> bool) (pks : list Packet) (c : Connection) :
  locked c -> replacements kind c pks = 0%nat.
Proof.
  revert c. induction pks as [| pk pks IH]; intros c Hl; simpl.
  - reflexivity.
  - destruct (receive_locked c pk Hl) as [Hl' Hd].
    rewrite Hd, dest_eqb_refl, andb_false_r, (IH _ Hl'). reflexivity.
Qed.

(** Once a destination ID is learned, no Retry replaces it, and at most
    one Handshake does. *)
Lemma replacements_learned (pks : list Packet) (c : Connection) :
  learned c ->
  replacements isRetry c pks = 0%nat /\ (replacements isHandshake c pks <= 1)%nat.
Proof.
  revert c. induction pks as [| pk pks IH]; intros c Hl; simpl.
  - split; [reflexivity | lia].
  - destruct pk as [p | p]; simpl.
    + destruct (receive_Retry_learned c p Hl) as [Hl' [Hd _]].
      simpl in Hd. rewrite Hd, dest_eqb_refl. simpl.
      apply (IH _ Hl').
    + pose proof (receive_Handshake_locked c p (proj1 Hl)) as Hl'.
      simpl in Hl'.
      rewrite !(replacements_locked _ _ _ Hl').
      split; [reflexivity |].
      destruct (negb _); simpl; lia.
Qed.

Lemma replacements_Server (kind : Packet -> bool) (pks : list Packet) (c : Connection) :
  getEndpointType c = Server -> replacements kind c pks = 0%nat.
Proof.
  revert c. induction pks as [| pk pks IH]; intros c Hs; simpl.
  - reflexivity.
  - pose proof (receive_Server c pk Hs) as H.
    apply ids_inv in H. cbn [fst snd] in H. destruct H as [He [Hd Hr]].
    cbn [fst snd] in He, Hd.
    rewrite Hd, dest_eqb_refl, andb_false_r.
    rewrite IH; [reflexivity | rewrite He; exact Hs].
Qed.

(** In every run, from any connection, at most one Retry and at most one
    Handshake replace the destination ID. *)
Lemma replacements_bound (pks : list Packet) (c : Connection) :
  (replacements isRetry c pks <= 1)%nat /\ (replacements isHandshake c pks <= 1)%nat.
Proof.
  destruct (getEndpointType c) eqn:Hc.
  2: { rewrite !replacements_Server by exact Hc. lia. }
  destruct pks as [| pk pks]; simpl; [lia |].
  pose proof (receive_learned c pk Hc) as Hl.
  destruct pk as [p | p]; simpl.
  - destruct (replacements_learned pks _ Hl) as [Hr Hh]. simpl in Hr, Hh.
    rewrite Hr. split; [destruct (negb _); simpl; lia | exact Hh].
  - pose proof (receive_Handshake_locked c p Hc) as Hl'. simpl in Hl'.
    rewrite !(replacements_locked _ _ _ Hl').
    split; [lia | destruct (negb _); simpl; lia].
Qed.

Lemma handleRetryPacket_ignored (c : Connection) (p : LongHeaderPacket) (dest : ConnectionID) :
  getEndpointType c = Client ->
  getDestConnectionID c = Some dest ->
  cid_getValue dest <> cid_getValue (getSrcConnectionID_of p) ->
  handleRetryPacket p c = (c, Some (QuickerError IGNORE_PACKET_ERROR)).
Proof.
  intros Hc Hd Hne. unfold handleRetryPacket.
  apply andThen_throw. rewrite Hc, Hd.
  apply differs_true in Hne. rewrite Hne. reflexivity.
Qed.

Lemma handleHandshakePacket_ignored (c : Connection) (p : LongHeaderPacket) (dest : ConnectionID) :
  getEndpointType c = Client ->
  getDestConnectionID c = Some dest ->
  getRetrySent c = false ->
  cid_getValue dest <> cid_getValue (getSrcConnectionID_of p) ->
  handleHandshakePacket p c = (c, Some (QuickerError IGNORE_PACKET_ERROR)).
Proof.
  intros Hc Hd Hr Hne. unfold handleHandshakePacket.
  apply andThen_throw. rewrite Hc, Hd, Hr.
  apply differs_true in Hne. rewrite Hne. reflexivity.
Qed.


End Discipline.

(** *** Frames, and what version negotiation leaves behind *)

Lemma handleFrames_app (fs gs : list BaseFrame) (c : Connection) :
  handleFrames (fs ++ gs) c = (handleFrames fs >>> handleFrames gs) c.
Proof.
  revert c. induction fs as [| f fs IH]; intros c.
  - reflexivity.
  - change (handleFrames ((f :: fs) ++ gs) c)
      with ((frameHandler_handle f >>> handleFrames (fs ++ gs)) c).
    change (handleFrames (f :: fs))
      with (frameHandler_handle f >>> handleFrames fs).
    unfold andThen at 1 2 3.
    destruct (frameHandler_handle f c) as [c1 [e |]].
    + reflexivity.
    + rewrite IH. reflexivity.
Qed.

(** X5: the frames of a packet are handled in order, and a frame whose
    handler throws ends the packet: the frames after it are not handled,
    and the connection is left as the throwing handler left it. *)
Theorem handleFrames_stops (fs gs : list BaseFrame) (f : BaseFrame)
    (c c1 c2 : Connection) (e : Error) :
  handleFrames fs c = (c1, None) ->
  frameHandler_handle f c1 = (c2, Some e) ->
  handleFrames (fs ++ f :: gs) c = (c2, Some e).
Proof.
  intros Hfs Hf. rewrite handleFrames_app. unfold andThen at 1. rewrite Hfs.
  change (handleFrames (f :: gs)) with (frameHandler_handle f >>> handleFrames gs).
  unfold andThen. rewrite Hf. reflexivity.
Qed.

Lemma string_le_antisym (a b : string) : string_le a b -> string_le b a -> a = b.
Proof.
  rewrite !string_le_iff.
  pose proof String_as_OT.lt_strorder as [Hirr Htr].
  intros [-> | Hab] [Hba | Hba]; auto.
  exfalso. exact (Hirr _ (Htr _ _ _ Hab Hba)).
Qed.

(** X7: a Version Negotiation packet is honoured once.  If resetting the
    connection installs the negotiated version and keeps the initial
    one, then after a packet that led to a reset every further Version
    Negotiation packet leaves the connection as it is and raises
    nothing. *)
Theorem negotiation_honoured_once (p p' : VersionNegotiationPacket) (c : Connection) :
  (forall n c', getVersion (fst (resetConnection n c')) = n /\
                getInitialVersion (fst (resetConnection n c')) = getInitialVersion c') ->
  toString (getVersion c) = toString (getInitialVersion c) ->
  echoes p c ->
  (forall v, In v (getVersions p) -> toString v <> toString (getInitialVersion c)) ->
  (exists v, In v (getVersions p) /\ supported v) ->
  let c1 := fst (handleVersionNegotiationPacket p c) in
  handleVersionNegotiationPacket p' c1 = (c1, None).
Proof.
  intros Hreset Hsame [He1 He2] Hnone [v [Hv Hs]] c1.
  assert (Hc1 : toString (getVersion c1) <> toString (getInitialVersion c1)).
  { subst c1. unfold handleVersionNegotiationPacket.
    rewrite (proj2 (String.eqb_eq _ _) Hsame). cbn [negb].
    rewrite (proj2 (differs_false _ _) He1), (proj2 (differs_false _ _) He2).
    cbn [orb].
    destruct (containsChosenVersion c (getVersions p)) eqn:Hc.
    { apply containsChosenVersion_true in Hc. destruct Hc as [w [Hw Hw']].
      exfalso. exact (Hnone w Hw Hw'). }
    pose proof (negotiate_fold (getVersions p) None) as Hfold.
    destruct (fold_left negotiate (getVersions p) None) as [n |].
    - destruct Hfold as [[Ho | [Hin _]] _]; [discriminate |].
      destruct (Hreset n c) as [-> ->]. apply Hnone. exact Hin.
    - destruct Hfold as [_ Hno]. exfalso. exact (Hno v Hv Hs). }
  unfold handleVersionNegotiationPacket.
  apply String.eqb_neq in Hc1. rewrite Hc1. reflexivity.
Qed.

End Handler.

Arguments Connection : clear implicits.
Arguments Action : clear implicits.
Arguments LongHeaderPacket : clear implicits.
Arguments Packet : clear implicits.

(** *** The handlers at work: the spec's scenarios 1 and 5 *)

(** A client with nothing beyond its IDs and versions, packets without
    frames, a reset that installs the negotiated version. *)
Definition hex (v : Version) : string := Bignum.toHex 4 (version_getValue v).

Definition local_versions : list string := ["ff00000c"; "ff00000b"]%string.

Definition client (version : Z) (dest : option ConnectionID) : Connection unit :=
  mkConnection Client (mkVersion version) (mkVersion 0xdeadbeef)
    (mkConnectionID 0x8394c8f03e515708 8) (mkConnectionID 0x0a0b0c0d 4)
    dest false tt.

Definition install (v : Version) : Action unit :=
  fun c => (mkConnection (getEndpointType c) v (getInitialVersion c)
              (getInitialDestConnectionID c) (getSrcConnectionID c)
              (getDestConnectionID c) (getRetrySent c) (getOthers c), None).

Definition negotiation (versions : list Z) : VersionNegotiationPacket :=
  mkVersionNegotiationPacket
    (mkVersionNegotiationHeader (mkConnectionID 0x8394c8f03e515708 8)
                                (mkConnectionID 0x0a0b0c0d 4))
    (map mkVersion versions).

Definition no_frames : unit -> Action unit := fun _ => skip.

Definition from (src : Z) : LongHeaderPacket unit :=
  mkLongHeaderPacket (mkConnectionID src 4) [].

Lemma handleVersionNegotiationPacket_witness :
  exists n,
    In n (getVersions (negotiation [0xff00000b; 0x1a2a3a4a; 0xff00000c])) /\
    supported hex local_versions n /\
    (forall v, In v (getVersions (negotiation [0xff00000b; 0x1a2a3a4a; 0xff00000c])) ->
               supported hex local_versions v ->
               string_le (hex v) (hex n)) /\
    handleVersionNegotiationPacket hex local_versions install
      (negotiation [0xff00000b; 0x1a2a3a4a; 0xff00000c]) (client 0xdeadbeef None)
    = install n (client 0xdeadbeef None).
Proof.
  apply (proj1 (proj2 (proj2 (proj2
           (handleVersionNegotiationPacket_spec hex local_versions install
              (negotiation [0xff00000b; 0x1a2a3a4a; 0xff00000c])
              (client 0xdeadbeef None)))))).
  - reflexivity.
  - split; reflexivity.
  - intros v [<- | [<- | [<- | []]]]; vm_compute; discriminate.
  - exists (mkVersion 0xff00000b). split; [left; reflexivity |].
    vm_compute. right. left. reflexivity.
Defined.

Lemma no_frames_keeps_ids : forall f, keeps_ids (no_frames f).
Proof. intros f c. simpl. auto. Qed.

Lemma skip_keeps_ids : keeps_ids (@skip unit).
Proof. intros c. simpl. auto. Qed.


(** Scenario 5: the second Retry, from another source, is ignored. *)
Lemma second_Retry_ignored :
  let c := run no_frames skip (client 0xdeadbeef None) [Retry (from 0xb0b0b0b0)] in
  getDestConnectionID c = Some (mkConnectionID 0xb0b0b0b0 4) /\
  handleRetryPacket no_frames skip (from 0xc0c0c0c0) c
  = (c, Some (QuickerError IGNORE_PACKET_ERROR)).
Proof. split; reflexivity. Qed.

(** *** Connection IDs are compared by value *)

(** C2 (where the claim fails): the handler compares the values of the
    connection IDs and not their lengths.  The client's initial
    destination ID is the eight bytes 83 94 c8 f0 3e 51 57 08; a packet
    whose source connection ID is the ten bytes 00 00 83 94 c8 f0 3e 51
    57 08 does not echo it, yet no VERSION_NEGOTIATION_ERROR is raised:
    the connection is reset to the version negotiated. *)
Lemma handleVersionNegotiationPacket_counterexample :
  let c := client 0xdeadbeef None in
  let p := mkVersionNegotiationPacket
             (mkVersionNegotiationHeader (mkConnectionID 0x8394c8f03e515708 10)
                                         (mkConnectionID 0x0a0b0c0d 4))
             [mkVersion 0xff00000b] in
  cid_toBuffer (getInitialDestConnectionID c)
  = [0x83; 0x94; 0xc8; 0xf0; 0x3e; 0x51; 0x57; 0x08] /\
  cid_toBuffer (vn_getSrcConnectionID (vn_getHeader p))
  = [0x00; 0x00; 0x83; 0x94; 0xc8; 0xf0; 0x3e; 0x51; 0x57; 0x08] /\
  ConnectionID_eqb (getInitialDestConnectionID c)
                   (vn_getSrcConnectionID (vn_getHeader p)) = false /\
  handleVersionNegotiationPacket hex local_versions install p c
  = (mkConnection Client (mkVersion 0xff00000b) (mkVersion 0xdeadbeef)
       (mkConnectionID 0x8394c8f03e515708 8) (mkConnectionID 0x0a0b0c0d 4)
       None false tt, None).
Proof. repeat split; vm_compute; reflexivity. Qed.


(** Why the discipline is stated for frame handlers that leave the IDs
    alone: with one that clears the destination connection ID, a Retry
    from another source replaces the ID learned from the first. *)
Definition forget : unit -> Action unit :=
  fun _ c => (mkConnection (getEndpointType c) (getVersion c) (getInitialVersion c)
                (getInitialDestConnectionID c) (getSrcConnectionID c)
                None (getRetrySent c) (getOthers c), None).

Lemma forgetful_frames_replace_twice :
  let retry src frames := Retry (mkLongHeaderPacket (mkConnectionID src 4) frames) in
  let pks := [retry 0xa0a0a0a0 []; retry 0xa0a0a0a0 [tt]; retry 0xb0b0b0b0 []] in
  getDestConnectionID (run forget skip (client 0xdeadbeef None) (take 1 pks))
  = Some (mkConnectionID 0xa0a0a0a0 4) /\
  getDestConnectionID (run forget skip (client 0xdeadbeef None) pks)
  = Some (mkConnectionID 0xb0b0b0b0 4) /\
  replacements forget skip isRetry (client 0xdeadbeef None) pks = 3%nat.
Proof. repeat split; vm_compute; reflexivity. Qed.

(** X6: the version negotiated does not depend on the order in which the
    peer lists its versions: two lists with the same versions give the
    same version string, or both give none. *)
Theorem negotiate_order_independent (toString : Version -> string)
    (SUPPORTED_VERSIONS : list string) (vs vs' : list Version) :
  Permutation vs vs' ->
  option_map toString (fold_left (negotiate toString SUPPORTED_VERSIONS) vs None)
  = option_map toString (fold_left (negotiate toString SUPPORTED_VERSIONS) vs' None).
Proof.
  intros Hperm.
  pose proof (negotiate_fold toString SUPPORTED_VERSIONS (Others := unit)
                (fun _ => skip) vs None) as H.
  pose proof (negotiate_fold toString SUPPORTED_VERSIONS (Others := unit)
                (fun _ => skip) vs' None) as H'.
  destruct (fold_left (negotiate toString SUPPORTED_VERSIONS) vs None) as [n |],
           (fold_left (negotiate toString SUPPORTED_VERSIONS) vs' None) as [n' |]; simpl.
  - destruct H as [[Ho | [Hin Hs]] [Hmax _]]; [discriminate |].
    destruct H' as [[Ho' | [Hin' Hs']] [Hmax' _]]; [discriminate |].
    f_equal. apply string_le_antisym.
    + apply Hmax'; [apply (Permutation_in _ Hperm); exact Hin | exact Hs].
    + apply Hmax; [apply (Permutation_in _ (Permutation_sym Hperm)); exact Hin' | exact Hs'].
  - destruct H as [[Ho | [Hin Hs]] _]; [discriminate |].
    destruct H' as [_ Hno]. exfalso.
    apply (Hno n); [apply (Permutation_in _ Hperm); exact Hin | exact Hs].
  - destruct H' as [[Ho' | [Hin' Hs']] _]; [discriminate |].
    destruct H as [_ Hno]. exfalso.
    apply (Hno n'); [apply (Permutation_in _ (Permutation_sym Hperm)); exact Hin' | exact Hs'].
  - reflexivity.
Qed.

(** A frame handler that refuses frame 0 and takes every other frame. *)
Definition refuse_zero (f : nat) : Action unit :=
  match f with
  | O => throw (QuicError FRAME_ENCODING_ERROR)
  | S _ => skip
  end.

Lemma handleFrames_stops_witness :
  handleFrames refuse_zero ([1; 2] ++ 0 :: [3; 4])%nat (client 0xdeadbeef None)
  = (client 0xdeadbeef None, Some (QuicError FRAME_ENCODING_ERROR)).
Proof.
  apply (handleFrames_stops refuse_zero [1; 2]%nat [3; 4]%nat 0%nat
           (client 0xdeadbeef None) (client 0xdeadbeef None)); reflexivity.
Defined.

Lemma negotiate_order_independent_witness :
  option_map hex
    (fold_left (negotiate hex local_versions)
       (map mkVersion [0xff00000b; 0x1a2a3a4a; 0xff00000c]) None)
  = option_map hex
      (fold_left (negotiate hex local_versions)
         (map mkVersion [0xff00000c; 0xff00000b; 0x1a2a3a4a]) None).
Proof.
  apply (negotiate_order_independent hex local_versions).
  exact (Permutation_app_comm (map mkVersion [0xff00000b; 0x1a2a3a4a])
           (map mkVersion [0xff00000c])).
Defined.

Lemma negotiation_honoured_once_witness :
  let c1 := fst (handleVersionNegotiationPacket hex local_versions install
                   (negotiation [0xff00000b; 0xff00000c]) (client 0xdeadbeef None)) in
  handleVersionNegotiationPacket hex local_versions install
    (negotiation [0xff00000b]) c1 = (c1, None).
Proof.
  apply (negotiation_honoured_once hex local_versions install).
  - intros n c'. split; reflexivity.
  - reflexivity.
  - split; reflexivity.
  - intros v [<- | [<- | []]]; vm_compute; discriminate.
  - exists (mkVersion 0xff00000b). split; [left; reflexivity |].
    vm_compute. right. left. reflexivity.
Defined.

End PacketHandler.

(** ** The stream manager (quicker/stream.manager.ts) *)

Module StreamManager.

(** Modelled from the spec: quicker/stream.ts is not among the sources;
    "stream IDs partition by [id & 0b11]: bit 0 = initiator (0 client, 1
    server), bit 1 = unidirectional", and a stream has its ID and "local
    and remote max-data windows" ([None] until [setLocalMaxData] or
    [setRemoteMaxData] is called on it). *)
Inductive StreamType : Type := ClientBidi | ServerBidi | ClientUni | ServerUni.

Definition StreamType_value (streamType : StreamType) : Z :=
  match streamType with
  | ClientBidi => 0 | ServerBidi => 1 | ClientUni => 2 | ServerUni => 3
  end.

Record Stream : Type := mkStream {
  stream_endpointType : EndpointType;
  getStreamID : Bignum.t;
  getLocalMaxData : option Bignum.t;
  getRemoteMaxData : option Bignum.t
}.

Definition setLocalMaxData (maxData : Bignum.t) (s : Stream) : Stream :=
  mkStream (stream_endpointType s) (getStreamID s) (Some maxData) (getRemoteMaxData s).

Definition setRemoteMaxData (maxData : Bignum.t) (s : Stream) : Stream :=
  mkStream (stream_endpointType s) (getStreamID s) (getLocalMaxData s) (Some maxData).

(** A stream is an object: the manager's array, the caller and the
    listeners hold references to it.  [objects] are the Stream objects
    allocated so far, a reference is an index into them. *)
Definition ref : Type := nat.

Inductive Event : Type := INITIALIZED_STREAM (stream : ref).

Record StreamManager : Type := mkStreamManager {
  objects : list Stream;
  streams : list ref;
  endpointType : EndpointType;
  localMaxStreamData : option Bignum.t;
  remoteMaxStreamData : option Bignum.t;
  emitted : list Event
}.

Definition new (endpointType : EndpointType) : StreamManager :=
  mkStreamManager [] [] endpointType None None [].

Definition with_objects (objs : list Stream) (m : StreamManager) : StreamManager :=
  mkStreamManager objs (streams m) (endpointType m)
    (localMaxStreamData m) (remoteMaxStreamData m) (emitted m).

Definition with_streams (refs : list ref) (m : StreamManager) : StreamManager :=
  mkStreamManager (objects m) refs (endpointType m)
    (localMaxStreamData m) (remoteMaxStreamData m) (emitted m).

Definition emit (e : Event) (m : StreamManager) : StreamManager :=
  mkStreamManager (objects m) (streams m) (endpointType m)
    (localMaxStreamData m) (remoteMaxStreamData m) (emitted m ++ [e]).

Definition setLocalMaxStreamData (maxStreamData : Bignum.t) (m : StreamManager) : StreamManager :=
  mkStreamManager (objects m) (streams m) (endpointType m)
    (Some maxStreamData) (remoteMaxStreamData m) (emitted m).

Definition setRemoteMaxStreamData (maxStreamData : Bignum.t) (m : StreamManager) : StreamManager :=
  mkStreamManager (objects m) (streams m) (endpointType m)
    (localMaxStreamData m) (Some maxStreamData) (emitted m).

(** [new Stream(...)]: a fresh object, known by its reference. *)
Definition alloc (s : Stream) (m : StreamManager) : StreamManager * ref :=
  (with_objects (objects m ++ [s]) m, length (objects m)).

(** A method call that mutates the object behind [r]. *)
Definition mutate (r : ref) (f : Stream -> Stream) (m : StreamManager) : StreamManager :=
  match objects m !! r with
  | Some s => with_objects (<[r := f s]> (objects m)) m
  | None => m
  end.

(** [_getStream]: [forEach] overwrites [res] at every match, so the last
    stream of the array with that ID is the one returned. *)
Definition _getStream_step (objs : list Stream) (streamId : Bignum.t)
    (res : option ref) (stream : ref) : option ref :=
  match objs !! stream with
  | Some s => if Bignum.equals (getStreamID s) streamId then Some stream else res
  | None => res
  end.

Definition _getStream (m : StreamManager) (streamId : Bignum.t) : option ref :=
  fold_left (_getStream_step (objects m) streamId) (streams m) None.

Definition hasStream (m : StreamManager) (streamId : Bignum.t) : bool :=
  match _getStream m streamId with Some _ => true | None => false end.

Definition addStream (stream : ref) (m : StreamManager) : StreamManager :=
  match objects m !! stream with
  | Some s =>
      match _getStream m (getStreamID s) with
      | None => with_streams (streams m ++ [stream]) m
      | Some _ => m
      end
  | None => m
  end.

Definition initializeStream (streamId : Bignum.t) (m : StreamManager) : StreamManager * ref :=
  let (m, stream) := alloc (mkStream (endpointType m) streamId None None) m in
  let m := addStream stream m in
  let m := match localMaxStreamData m with
           | Some maxData => mutate stream (setLocalMaxData maxData) m
           | None => m
           end in
  let m := match remoteMaxStreamData m with
           | Some maxData => mutate stream (setRemoteMaxData maxData) m
           | None => m
           end in
  (emit (INITIALIZED_STREAM stream) m, stream).

Definition getStream (streamId : Bignum.t) (m : StreamManager) : StreamManager * ref :=
  match _getStream m streamId with
  | Some stream => (m, stream)
  | None => initializeStream streamId m
  end.

(** [Array.prototype.indexOf] on references, [splice(index, 1)]. *)
Fixpoint indexOf (l : list ref) (r : ref) : option nat :=
  match l with
  | [] => None
  | x :: l' => if Nat.eqb x r then Some 0%nat else option_map S (indexOf l' r)
  end.

Definition deleteStream_object (stream : ref) (m : StreamManager) : StreamManager :=
  match indexOf (streams m) stream with
  | Some index => with_streams (delete index (streams m)) m
  | None => m
  end.

Definition deleteStream (streamId : Bignum.t) (m : StreamManager) : StreamManager :=
  match _getStream m streamId with
  | Some stream => deleteStream_object stream m
  | None => m
  end.

(** The first loop of [getNextStream]: step by 4 while a stream with ID
    [next] exists.  [None] when the rounds allowed are used up. *)
Fixpoint search (rounds : nat) (m : StreamManager) (next : Bignum.t) : option Bignum.t :=
  match _getStream m next with
  | None => Some next
  | Some _ =>
      match rounds with
      | O => None
      | S rounds' => search rounds' m (Bignum.add next 4)
      end
  end.

(** Its second loop: subtract 4 while [next] is greater than 4. *)
Fixpoint lower (rounds : nat) (next : Bignum.t) : Bignum.t :=
  if Bignum.greaterThan next 4 then
    match rounds with
    | O => next
    | S rounds' => lower rounds' (Bignum.subtract next 4)
    end
  else next.

(** One round for each stream held is enough for the first loop, [next]
    rounds for the second (see [search_total] and [lower_done]). *)
Definition getNextStream (streamType : StreamType) (m : StreamManager)
    : option (StreamManager * ref) :=
  match search (length (streams m)) m (StreamType_value streamType) with
  | Some next => Some (getStream (lower (Z.to_nat next) next) m)
  | None => None
  end.

(** The ID of the stream behind a reference, and the IDs the manager holds. *)
Definition id_of (m : StreamManager) (r : ref) : option Bignum.t :=
  getStreamID <$> objects m !! r.

Definition stream_ids (m : StreamManager) : list Bignum.t :=
  omap (id_of m) (streams m).

(** The states a manager goes through: built by [new], then any of its
    public methods, while its environment allocates streams of its own. *)
Inductive reachable : StreamManager -> Prop :=
| reach_new e : reachable (new e)
| reach_setLocalMaxStreamData v m :
    reachable m -> reachable (setLocalMaxStreamData v m)
| reach_setRemoteMaxStreamData v m :
    reachable m -> reachable (setRemoteMaxStreamData v m)
| reach_alloc s m : reachable m -> reachable (fst (alloc s m))
| reach_addStream r m :
    reachable m -> (r < length (objects m))%nat -> reachable (addStream r m)
| reach_getStream streamId m : reachable m -> reachable (fst (getStream streamId m))
| reach_deleteStream streamId m : reachable m -> reachable (deleteStream streamId m)
| reach_deleteStream_object r m : reachable m -> reachable (deleteStream_object r m)
| reach_getNextStream streamType m m' r :
    reachable m -> getNextStream streamType m = Some (m', r) -> reachable m'.

(** *** Lookup *)

Lemma _getStream_fold_Some (objs : list Stream) (streamId : Bignum.t)
    (refs : list ref) (acc : option ref) (r : ref) :
  fold_left (_getStream_step objs streamId) refs acc = Some r ->
  (acc = Some r \/ r ∈ refs) /\
  (acc = Some r \/ exists s, objs !! r = Some s /\ getStreamID s = streamId).
Proof.
  revert acc. induction refs as [| x refs IH]; intros acc H; simpl in H.
  - split; left; exact H.
  - apply IH in H. destruct H as [H1 H2]. unfold _getStream_step in H1, H2.
    destruct (objs !! x) as [s |] eqn:Hx.
    + destruct (Bignum.equals (getStreamID s) streamId) eqn:He.
      * apply Z.eqb_eq in He. split.
        -- destruct H1 as [[= <-] | H1]; right; [left | right; exact H1].
        -- destruct H2 as [[= <-] | H2]; right; [exists s; auto | exact H2].
      * split; [destruct H1 as [H1 | H1]; [left; exact H1 | right; right; exact H1] | exact H2].
    + split; [destruct H1 as [H1 | H1]; [left; exact H1 | right; right; exact H1] | exact H2].
Qed.

Lemma _getStream_fold_None (objs : list Stream) (streamId : Bignum.t)
    (refs : list ref) (acc : option ref) :
  fold_left (_getStream_step objs streamId) refs acc = None <->
  acc = None /\
  forall r s, r ∈ refs -> objs !! r = Some s -> getStreamID s <> streamId.
Proof.
  revert acc. induction refs as [| x refs IH]; intros acc; simpl.
  - split; [intros ->; split; [reflexivity | intros r s Hr; inversion Hr] | tauto].
  - rewrite IH. unfold _getStream_step.
    destruct (objs !! x) as [sx |] eqn:Hx.
    + destruct (Bignum.equals (getStreamID sx) streamId) eqn:He.
      * apply Z.eqb_eq in He. split; [intros [[=] _] |].
        intros [_ H]. exfalso. apply (H x sx); [left | exact Hx | exact He].
      * apply Z.eqb_neq in He. split; intros [Ha H]; (split; [exact Ha |]).
        -- intros r s Hr Hs. apply elem_of_cons in Hr. destruct Hr as [-> | Hr].
           ++ congruence.
           ++ apply (H r s Hr Hs).
        -- intros r s Hr Hs. apply (H r s); [right; exact Hr | exact Hs].
    + split; intros [Ha H]; (split; [exact Ha |]).
      * intros r s Hr Hs. apply elem_of_cons in Hr. destruct Hr as [-> | Hr].
        -- congruence.
        -- apply (H r s Hr Hs).
      * intros r s Hr Hs. apply (H r s); [right; exact Hr | exact Hs].
Qed.

Lemma _getStream_Some (m : StreamManager) (streamId : Bignum.t) (r : ref) :
  _getStream m streamId = Some r ->
  r ∈ streams m /\ exists s, objects m !! r = Some s /\ getStreamID s = streamId.
Proof.
  intros H. apply _getStream_fold_Some in H.
  destruct H as [[H1 | H1] [H2 | H2]]; try discriminate. auto.
Qed.

Lemma elem_of_stream_ids (m : StreamManager) (streamId : Bignum.t) :
  streamId ∈ stream_ids m <->
  exists r s, r ∈ streams m /\ objects m !! r = Some s /\ getStreamID s = streamId.
Proof.
  unfold stream_ids, id_of. rewrite list_elem_of_omap. split.
  - intros [r [Hr Hid]]. destruct (objects m !! r) as [s |] eqn:Hs; [| discriminate].
    simpl in Hid. injection Hid as <-. exists r, s. auto.
  - intros [r [s [Hr [Hs <-]]]]. exists r. rewrite Hs. auto.
Qed.

Lemma _getStream_None (m : StreamManager) (streamId : Bignum.t) :
  _getStream m streamId = None <-> streamId ∉ stream_ids m.
Proof.
  unfold _getStream. rewrite _getStream_fold_None, elem_of_stream_ids. split.
  - intros [_ H] [r [s [Hr [Hs He]]]]. exact (H r s Hr Hs He).
  - intros H. split; [reflexivity |]. intros r s Hr Hs He. apply H. eauto.
Qed.

Lemma hasStream_true (m : StreamManager) (streamId : Bignum.t) :
  hasStream m streamId = true <-> streamId ∈ stream_ids m.
Proof.
  unfold hasStream. destruct (_getStream m streamId) as [r |] eqn:H.
  - split; [intros _ | reflexivity].
    apply _getStream_Some in H. destruct H as [Hr [s [Hs He]]].
    apply elem_of_stream_ids. eauto.
  - apply _getStream_None in H. split; [discriminate | contradiction].
Qed.

Lemma hasStream_false (m : StreamManager) (streamId : Bignum.t) :
  hasStream m streamId = false <-> streamId ∉ stream_ids m.
Proof.
  rewrite <- hasStream_true. destruct (hasStream m streamId); split; congruence.
Qed.

(** *** The loops of [getNextStream] end *)

Lemma search_None (rounds : nat) (m : StreamManager) (next : Bignum.t) :
  search rounds m next = None ->
  forall k, (k <= rounds)%nat -> next + 4 * Z.of_nat k ∈ stream_ids m.
Proof.
  revert next. induction rounds as [| rounds IH]; intros next H k Hk; simpl in H.
  - destruct (_getStream m next) as [r |] eqn:Hg; [| discriminate].
    assert (k = 0%nat) as -> by lia. replace (next + 4 * Z.of_nat 0) with next by lia.
    apply hasStream_true. unfold hasStream. rewrite Hg. reflexivity.
  - destruct (_getStream m next) as [r |] eqn:Hg; [| discriminate].
    destruct k as [| k].
    + replace (next + 4 * Z.of_nat 0) with next by lia.
      apply hasStream_true. unfold hasStream. rewrite Hg. reflexivity.
    + specialize (IH _ H k ltac:(lia)). unfold Bignum.add in IH.
      replace (next + 4 * Z.of_nat (S k)) with (next + 4 + 4 * Z.of_nat k) by lia.
      exact IH.
Qed.

Lemma stream_ids_length (m : StreamManager) :
  (length (stream_ids m) <= length (streams m))%nat.
Proof.
  unfold stream_ids. induction (streams m) as [| r refs IH]; simpl.
  - lia.
  - change (list_omap ref Bignum.t (id_of m) refs) with (omap (id_of m) refs).
    destruct (id_of m r); simpl; lia.
Qed.

(** The first loop finds a free ID within one round for each stream held. *)
Lemma search_total (m : StreamManager) (next : Bignum.t) :
  exists free, search (length (streams m)) m next = Some free.
Proof.
  destruct (search (length (streams m)) m next) as [free |] eqn:H; [eauto |].
  exfalso.
  pose proof (search_None _ _ _ H) as Hall.
  set (n := length (streams m)) in *.
  set (l := map (fun k => next + 4 * Z.of_nat k) (seq 0 (S n))).
  assert (Hnd : NoDup l).
  { apply NoDup_fmap_2; [| apply NoDup_seq].
    intros a b Hab. lia. }
  assert (Hincl : forall x, x ∈ l -> x ∈ stream_ids m).
  { intros x Hx. apply list_elem_of_In, in_map_iff in Hx.
    destruct Hx as [k [<- Hk]]. apply in_seq in Hk. apply Hall. lia. }
  pose proof (submseteq_length _ _ (NoDup_submseteq _ _ Hnd Hincl)) as Hlen.
  pose proof (stream_ids_length m) as Hle.
  unfold l in Hlen. rewrite length_map, length_seq in Hlen.
  unfold n, Bignum.t in *. lia.
Qed.

(** Where the second loop stops. *)
Definition lowered (next : Z) : Z :=
  if next >? 4 then (next - 1) mod 4 + 1 else next.

Lemma lower_done (rounds : nat) (next : Bignum.t) :
  next <= Z.of_nat rounds -> lower rounds next = lowered next.
Proof.
  revert next. induction rounds as [| rounds IH]; intros next Hn; simpl;
    unfold lowered, Bignum.greaterThan.
  - destruct (next >? 4) eqn:Hgt; [lia | reflexivity].
  - destruct (next >? 4) eqn:Hgt; [| reflexivity].
    rewrite IH by (unfold Bignum.subtract; lia).
    unfold lowered, Bignum.subtract.
    replace (next - 1) with (next - 4 - 1 + 1 * 4) by lia.
    rewrite Z.mod_add by lia.
    destruct (next - 4 >? 4) eqn:Hgt'; [reflexivity |].
    rewrite Z.mod_small by lia. lia.
Qed.

Lemma getNextStream_total (streamType : StreamType) (m : StreamManager) :
  exists free,
    search (length (streams m)) m (StreamType_value streamType) = Some free /\
    getNextStream streamType m = Some (getStream (lowered free) m).
Proof.
  unfold getNextStream.
  destruct (search_total m (StreamType_value streamType)) as [free Hf].
  exists free. rewrite Hf. split; [reflexivity |].
  destruct (Z_le_gt_dec 0 free) as [Hpos | Hneg].
  - rewrite lower_done by lia. reflexivity.
  - replace (Z.to_nat free) with 0%nat by lia. simpl.
    unfold lowered, Bignum.greaterThan.
    destruct (free >? 4) eqn:Hgt; [lia | reflexivity].
Qed.

(** *** The invariant: references are live, IDs are distinct *)

Definition live (m : StreamManager) : Prop :=
  forall r, r ∈ streams m -> (r < length (objects m))%nat.

Lemma omap_ext_in {A B : Type} (f g : A -> option B) (l : list A) :
  (forall x, x ∈ l -> f x = g x) -> omap f l = omap g l.
Proof.
  induction l as [| x l IH]; intros H; simpl; [reflexivity |].
  rewrite (H x) by left.
  change (list_omap A B f l) with (omap f l).
  change (list_omap A B g l) with (omap g l).
  rewrite IH; [reflexivity |]. intros y Hy. apply H. right. exact Hy.
Qed.

Lemma omap_sublist {A B : Type} (f : A -> option B) (l1 l2 : list A) :
  sublist l1 l2 -> sublist (omap f l1) (omap f l2).
Proof.
  induction 1 as [| x l1 l2 _ IH | x l1 l2 _ IH]; simpl.
  - constructor.
  - destruct (f x); [constructor |]; exact IH.
  - destruct (f x); [constructor |]; exact IH.
Qed.

Lemma stream_ids_ext (m m' : StreamManager) :
  streams m' = streams m ->
  (forall r, r ∈ streams m -> id_of m' r = id_of m r) ->
  stream_ids m' = stream_ids m.
Proof.
  intros Hs H. unfold stream_ids. rewrite Hs. apply omap_ext_in. exact H.
Qed.

Lemma _getStream_ext (m m' : StreamManager) (streamId : Bignum.t) :
  stream_ids m' = stream_ids m ->
  _getStream m streamId = None -> _getStream m' streamId = None.
Proof. intros H. rewrite !_getStream_None, H. auto. Qed.

Lemma id_of_alloc (s : Stream) (m : StreamManager) (r : ref) :
  (r < length (objects m))%nat -> id_of (fst (alloc s m)) r = id_of m r.
Proof.
  intros Hr. unfold id_of. simpl. rewrite lookup_app_l by exact Hr. reflexivity.
Qed.

Lemma stream_ids_alloc (s : Stream) (m : StreamManager) :
  live m -> stream_ids (fst (alloc s m)) = stream_ids m.
Proof.
  intros Hl. apply stream_ids_ext; [reflexivity |].
  intros r Hr. apply id_of_alloc. apply Hl. exact Hr.
Qed.

Lemma stream_ids_push (m : StreamManager) (r : ref) (s : Stream) :
  objects m !! r = Some s ->
  stream_ids (with_streams (streams m ++ [r]) m) = stream_ids m ++ [getStreamID s].
Proof.
  intros Hs. unfold stream_ids. simpl. rewrite omap_app. simpl.
  unfold id_of at 2. simpl. rewrite Hs. reflexivity.
Qed.

Lemma mutate_last (m : StreamManager) (l : list Stream) (s : Stream)
    (f : Stream -> Stream) :
  objects m = l ++ [s] -> mutate (length l) f m = with_objects (l ++ [f s]) m.
Proof.
  intros H. unfold mutate. rewrite H.
  rewrite list_lookup_middle by reflexivity.
  rewrite insert_app_r_alt by lia. rewrite Nat.sub_diag. reflexivity.
Qed.

Lemma addStream_fresh (m : StreamManager) (r : ref) (s : Stream) :
  objects m !! r = Some s -> _getStream m (getStreamID s) = None ->
  addStream r m = with_streams (streams m ++ [r]) m.
Proof. intros Hs Hg. unfold addStream. rewrite Hs, Hg. reflexivity. Qed.

(** What [initializeStream] leaves when no stream has that ID: one new
    object, created with the manager's limits, pushed and announced. *)
Lemma initializeStream_fresh (streamId : Bignum.t) (m : StreamManager) :
  live m -> _getStream m streamId = None ->
  initializeStream streamId m =
    (mkStreamManager
       (objects m ++ [mkStream (endpointType m) streamId
                        (localMaxStreamData m) (remoteMaxStreamData m)])
       (streams m ++ [length (objects m)])
       (endpointType m) (localMaxStreamData m) (remoteMaxStreamData m)
       (emitted m ++ [INITIALIZED_STREAM (length (objects m))]),
     length (objects m)).
Proof.
  intros Hl Hnone. unfold initializeStream.
  set (s0 := mkStream (endpointType m) streamId None None).
  assert (Hget : _getStream (fst (alloc s0 m)) (getStreamID s0) = None).
  { apply _getStream_ext with m; [apply stream_ids_alloc; exact Hl | exact Hnone]. }
  unfold alloc in *. cbn [fst] in Hget.
  rewrite (addStream_fresh _ _ s0);
    [| apply list_lookup_middle; reflexivity | exact Hget].
  cbn [localMaxStreamData remoteMaxStreamData with_streams with_objects].
  destruct (localMaxStreamData m) as [l |] eqn:Hlocal.
  - rewrite (mutate_last _ (objects m) s0) by reflexivity.
    cbn [localMaxStreamData remoteMaxStreamData with_streams with_objects].
    destruct (remoteMaxStreamData m) as [r |] eqn:Hremote.
    + rewrite (mutate_last _ (objects m) (setLocalMaxData l s0)) by reflexivity.
      unfold emit. cbn. rewrite Hlocal, Hremote. reflexivity.
    + unfold emit. cbn. rewrite Hlocal, Hremote. reflexivity.
  - cbn [localMaxStreamData remoteMaxStreamData with_streams with_objects].
    destruct (remoteMaxStreamData m) as [r |] eqn:Hremote.
    + rewrite (mutate_last _ (objects m) s0) by reflexivity.
      unfold emit. cbn. rewrite Hlocal, Hremote. reflexivity.
    + unfold emit. cbn. rewrite Hlocal, Hremote. reflexivity.
Qed.

Definition inv (m : StreamManager) : Prop := live m /\ NoDup (stream_ids m).

Lemma stream_ids_fresh (m : StreamManager) (s : Stream) (e : EndpointType)
    (l r : option Bignum.t) (events : list Event) :
  live m ->
  stream_ids (mkStreamManager (objects m ++ [s]) (streams m ++ [length (objects m)])
                e l r events)
  = stream_ids m ++ [getStreamID s].
Proof.
  intros Hl. unfold stream_ids. cbn [streams]. rewrite omap_app. f_equal.
  - apply omap_ext_in. intros x Hx. unfold id_of. cbn [objects].
    rewrite lookup_app_l by (apply Hl; exact Hx). reflexivity.
  - simpl. unfold id_of. cbn [objects].
    rewrite list_lookup_middle by reflexivity. reflexivity.
Qed.

Lemma inv_getStream (streamId : Bignum.t) (m : StreamManager) :
  inv m -> inv (fst (getStream streamId m)).
Proof.
  intros [Hl Hnd]. unfold getStream.
  destruct (_getStream m streamId) as [r |] eqn:Hg; [split; assumption |].
  rewrite (initializeStream_fresh _ _ Hl Hg). cbn [fst]. split.
  - intros r Hr. cbn [streams objects] in *. rewrite length_app. simpl.
    apply elem_of_app in Hr. destruct Hr as [Hr | Hr].
    + specialize (Hl r Hr). lia.
    + apply list_elem_of_singleton in Hr. lia.
  - rewrite (stream_ids_fresh _ _ _ _ _ _ Hl). cbn [getStreamID].
    apply NoDup_app. split; [exact Hnd |]. split.
    + intros x Hx Hx'. apply list_elem_of_singleton in Hx'. subst x.
      apply _getStream_None in Hg. contradiction.
    + apply NoDup_singleton.
Qed.

Lemma inv_alloc (s : Stream) (m : StreamManager) : inv m -> inv (fst (alloc s m)).
Proof.
  intros [Hl Hnd]. split.
  - intros r Hr. simpl in *. rewrite length_app. simpl. specialize (Hl r Hr). lia.
  - rewrite stream_ids_alloc by exact Hl. exact Hnd.
Qed.

Lemma inv_addStream (r : ref) (m : StreamManager) :
  (r < length (objects m))%nat -> inv m -> inv (addStream r m).
Proof.
  intros Hr [Hl Hnd]. unfold addStream.
  destruct (objects m !! r) as [s |] eqn:Hs; [| split; assumption].
  destruct (_getStream m (getStreamID s)) as [r' |] eqn:Hg; [split; assumption |].
  split.
  - intros x Hx. simpl in *. apply elem_of_app in Hx. destruct Hx as [Hx | Hx].
    + apply Hl. exact Hx.
    + apply list_elem_of_singleton in Hx. subst x. exact Hr.
  - rewrite (stream_ids_push _ _ _ Hs). apply NoDup_app.
    split; [exact Hnd |]. split.
    + intros x Hx Hx'. apply list_elem_of_singleton in Hx'. subst x.
      apply _getStream_None in Hg. contradiction.
    + apply NoDup_singleton.
Qed.

Lemma inv_deleteStream_object (r : ref) (m : StreamManager) :
  inv m -> inv (deleteStream_object r m).
Proof.
  intros [Hl Hnd]. unfold deleteStream_object.
  destruct (indexOf (streams m) r) as [index |]; [| split; assumption].
  split.
  - intros x Hx. simpl in *. apply Hl.
    apply (elem_of_sublist _ _ _ Hx). apply sublist_delete.
  - apply (sublist_NoDup _ _ Hnd). unfold stream_ids. simpl.
    apply omap_sublist. apply sublist_delete.
Qed.

Lemma inv_deleteStream (streamId : Bignum.t) (m : StreamManager) :
  inv m -> inv (deleteStream streamId m).
Proof.
  intros H. unfold deleteStream.
  destruct (_getStream m streamId); [apply inv_deleteStream_object |]; exact H.
Qed.

(** Every state the manager goes through keeps its references live and
    holds no two streams with one ID. *)
Lemma reachable_inv (m : StreamManager) : reachable m -> inv m.
Proof.
  intros Hreach.
  induction Hreach;
    try (first [ apply inv_alloc | apply inv_addStream | apply inv_getStream
               | apply inv_deleteStream | apply inv_deleteStream_object ];
         assumption).
  - split; [intros r Hr; inversion Hr | constructor].
  - match goal with H : inv ?m |- _ => exact H end.
  - match goal with H : inv ?m |- _ => exact H end.
  - match goal with
    | Hn : getNextStream ?t ?m = Some (?m', ?r) |- _ =>
        destruct (getNextStream_total t m) as [free [_ Hf]];
        rewrite Hf in Hn; injection Hn as Hn;
        change m' with (fst (m', r)); rewrite <- Hn
    end.
    apply inv_getStream. assumption.
Qed.

(** The reference [getStream] returns is to a stream with the ID asked
    for. *)
Lemma getStream_id (streamId : Bignum.t) (m : StreamManager) :
  live m ->
  exists s,
    objects (fst (getStream streamId m)) !! snd (getStream streamId m) = Some s /\
    getStreamID s = streamId.
Proof.
  intros Hl. unfold getStream.
  destruct (_getStream m streamId) as [r |] eqn:Hg.
  - apply _getStream_Some in Hg. destruct Hg as [_ [s [Hs He]]].
    exists s. auto.
  - rewrite (initializeStream_fresh _ _ Hl Hg). cbn [fst snd objects].
    eexists. split; [apply list_lookup_middle; reflexivity | reflexivity].
Qed.

(** C10: [getStream] always answers, and creates what it does not find.
    From every state of the manager, the reference returned is to a
    stream with the ID asked for, and the manager has that stream
    afterwards; the IDs held are distinct before and after.  If the
    manager had the stream it is left as it was; if not, the stream is a
    new object carrying the manager's local and remote limits (set or
    not), pushed at the end of the array and announced by one
    INITIALIZED_STREAM event. *)
Theorem getStream_creates (streamId : Bignum.t) (m : StreamManager) :
  reachable m ->
  let m' := fst (getStream streamId m) in
  let stream := snd (getStream streamId m) in
  (exists s, objects m' !! stream = Some s /\ getStreamID s = streamId) /\
  hasStream m' streamId = true /\
  NoDup (stream_ids m) /\ NoDup (stream_ids m') /\
  (hasStream m streamId = true -> m' = m) /\
  (hasStream m streamId = false ->
   stream = length (objects m) /\
   objects m' = objects m ++ [mkStream (endpointType m) streamId
                                (localMaxStreamData m) (remoteMaxStreamData m)] /\
   streams m' = streams m ++ [stream] /\
   emitted m' = emitted m ++ [INITIALIZED_STREAM stream]).
Proof.
  intros Hreach m' stream.
  pose proof (reachable_inv m Hreach) as Hinv.
  pose proof (inv_getStream streamId m Hinv) as Hinv'. fold m' in Hinv'.
  destruct Hinv as [Hl Hnd]. destruct Hinv' as [_ Hnd'].
  assert (Hhas : hasStream m streamId
                 = match _getStream m streamId with Some _ => true | None => false end)
    by reflexivity.
  subst m' stream. rewrite Hhas. clear Hhas. unfold getStream in *.
  destruct (_getStream m streamId) as [r |] eqn:Hg.
  - cbn [fst snd]. apply _getStream_Some in Hg as Hr.
    destruct Hr as [Hr [s [Hs He]]].
    split; [exists s; auto |].
    split; [unfold hasStream; rewrite Hg; reflexivity |].
    split; [exact Hnd |]. split; [exact Hnd' |].
    split; [reflexivity | discriminate].
  - rewrite (initializeStream_fresh _ _ Hl Hg) in *. cbn [fst snd] in *.
    split.
    { eexists. split; [apply list_lookup_middle; reflexivity | reflexivity]. }
    split.
    { apply hasStream_true. rewrite (stream_ids_fresh _ _ _ _ _ _ Hl).
      apply elem_of_app. right. apply list_elem_of_singleton. reflexivity. }
    split; [exact Hnd |]. split; [exact Hnd' |].
    split; [discriminate |].
    intros _. repeat split; reflexivity.
Qed.

Lemma getStream_creates_witness :
  let m := setLocalMaxStreamData 4096 (new Client) in
  let m' := fst (getStream 4 m) in
  let stream := snd (getStream 4 m) in
  (exists s, objects m' !! stream = Some s /\ getStreamID s = 4) /\
  hasStream m' 4 = true /\
  NoDup (stream_ids m) /\ NoDup (stream_ids m') /\
  (hasStream m 4 = true -> m' = m) /\
  (hasStream m 4 = false ->
   stream = length (objects m) /\
   objects m' = objects m ++ [mkStream (endpointType m) 4
                                (localMaxStreamData m) (remoteMaxStreamData m)] /\
   streams m' = streams m ++ [stream] /\
   emitted m' = emitted m ++ [INITIALIZED_STREAM stream]).
Proof.
  apply (getStream_creates 4 (setLocalMaxStreamData 4096 (new Client))).
  apply reach_setLocalMaxStreamData. apply reach_new.
Defined.

(** *** Allocation of the next stream *)

(** The second loop brings every ID down to at most 4. *)
Lemma lowered_le_4 (next : Z) : lowered next <= 4.
Proof.
  unfold lowered. destruct (next >? 4) eqn:H; [| lia].
  pose proof (Z.mod_pos_bound (next - 1) 4). lia.
Qed.

(** So [getNextStream] never hands out an ID above 4, whatever is held. *)
Lemma getNextStream_at_most_4 (streamType : StreamType) (m m' : StreamManager) (r : ref) :
  reachable m -> getNextStream streamType m = Some (m', r) ->
  exists s, objects m' !! r = Some s /\ getStreamID s <= 4.
Proof.
  intros Hreach Hn.
  destruct (getNextStream_total streamType m) as [free [_ Hf]].
  rewrite Hf in Hn. injection Hn as Hn.
  destruct (getStream_id (lowered free) m (proj1 (reachable_inv m Hreach)))
    as [s [Hs Hid]].
  rewrite Hn in Hs. exists s. split; [exact Hs |].
  rewrite Hid. apply lowered_le_4.
Qed.

(** A client that has opened streams 0 and 4. *)
Definition two_streams : StreamManager :=
  fst (getStream 4 (fst (getStream 0 (new Client)))).

Lemma two_streams_reachable : reachable two_streams.
Proof. repeat apply reach_getStream. apply reach_new. Qed.

(** C4 (the code departs from the claim): with streams 0 and 4 held, the
    lowest unused client-initiated bidirectional ID is 8; the search
    finds 8, the second loop lowers it to 4, and [getNextStream] returns
    the stream 4 that is already there, leaving the manager as it was. *)
Theorem getNextStream_reuses :
  stream_ids two_streams = [0; 4] /\
  search (length (streams two_streams)) two_streams (StreamType_value ClientBidi)
    = Some 8 /\
  getNextStream ClientBidi two_streams = Some (two_streams, 1%nat) /\
  id_of two_streams 1%nat = Some 4 /\
  hasStream two_streams 4 = true.
Proof. repeat split; vm_compute; reflexivity. Qed.

(** The same with the one stream 1 held and a server-initiated
    bidirectional stream asked for: 5 is lowered to 1. *)
Lemma getNextStream_reuses_1 :
  let m := fst (getStream 1 (new Server)) in
  getNextStream ServerBidi m = Some (m, 0%nat) /\ id_of m 0%nat = Some 1.
Proof. split; vm_compute; reflexivity. Qed.

(** *** What [getNextStream] returns, in closed form *)

Lemma search_Some (rounds : nat) (m : StreamManager) (next free : Bignum.t) :
  search rounds m next = Some free ->
  exists k : nat,
    free = next + 4 * Z.of_nat k /\
    _getStream m free = None /\
    forall j : nat, (j < k)%nat -> hasStream m (next + 4 * Z.of_nat j) = true.
Proof.
  revert next. induction rounds as [| rounds IH]; intros next H; simpl in H.
  - destruct (_getStream m next) as [r |] eqn:Hg; [discriminate |].
    injection H as <-. exists 0%nat.
    split; [lia |]. split; [exact Hg |]. intros j Hj. lia.
  - destruct (_getStream m next) as [r |] eqn:Hg.
    + apply IH in H. destruct H as [k [Hfree [Hnone Hheld]]].
      unfold Bignum.add in *. exists (S k).
      split; [lia |]. split; [exact Hnone |].
      intros [| j] Hj.
      * replace (next + 4 * Z.of_nat 0) with next by lia.
        unfold hasStream. rewrite Hg. reflexivity.
      * replace (next + 4 * Z.of_nat (S j)) with (next + 4 + 4 * Z.of_nat j) by lia.
        apply Hheld. lia.
    + injection H as <-. exists 0%nat.
      split; [lia |]. split; [exact Hg |]. intros j Hj. lia.
Qed.

(** X8: the first loop of [getNextStream] always ends, on the lowest
    unused ID of the sequence next, next + 4, next + 8, ...: the ID it
    stops at is not held and every earlier one is. *)
Theorem search_lowest_unused (m : StreamManager) (next : Bignum.t) :
  exists k : nat,
    search (length (streams m)) m next = Some (next + 4 * Z.of_nat k) /\
    hasStream m (next + 4 * Z.of_nat k) = false /\
    forall j : nat, (j < k)%nat -> hasStream m (next + 4 * Z.of_nat j) = true.
Proof.
  destruct (search_total m next) as [free Hfree].
  destruct (search_Some _ _ _ _ Hfree) as [k [-> [Hnone Hheld]]].
  exists k. split; [exact Hfree |]. split; [| exact Hheld].
  unfold hasStream. rewrite Hnone. reflexivity.
Qed.

(** X9: what [getNextStream] returns, whatever the manager holds.  For the
    types 1, 2 and 3 it is [getStream] of the type's own number, the
    first ID of the type: a new stream the first time, the same stream
    ever after.  For type 0 it is [getStream 0] while stream 0 is not
    held and [getStream 4] from then on.  No ID above 4 is ever
    opened by it. *)
Theorem getNextStream_closed_form (streamType : StreamType) (m : StreamManager) :
  getNextStream streamType m =
  Some (getStream
          match streamType with
          | ClientBidi => if hasStream m 0 then 4 else 0
          | _ => StreamType_value streamType
          end m).
Proof.
  destruct (getNextStream_total streamType m) as [free [Hs Hf]].
  rewrite Hf. f_equal. f_equal.
  destruct (search_Some _ _ _ _ Hs) as [k [Hfree [Hnone Hheld]]].
  assert (Hlow : forall t, 1 <= t <= 3 -> lowered (t + 4 * Z.of_nat k) = t).
  { intros t Ht. unfold lowered.
    destruct (t + 4 * Z.of_nat k >? 4) eqn:Hgt.
    - replace (t + 4 * Z.of_nat k - 1) with (t - 1 + Z.of_nat k * 4) by lia.
      rewrite Z.mod_add by lia. rewrite Z.mod_small by lia. lia.
    - lia. }
  destruct streamType; cbn [StreamType_value] in Hfree, Hheld |- *; subst free;
    try (apply Hlow; lia).
  destruct k as [| k].
  - change (0 + 4 * Z.of_nat 0) with 0 in Hnone |- *.
    unfold hasStream. rewrite Hnone. reflexivity.
  - specialize (Hheld 0%nat ltac:(lia)).
    change (0 + 4 * Z.of_nat 0) with 0 in Hheld. rewrite Hheld.
    unfold lowered.
    destruct (Z.gtb_spec (0 + 4 * Z.of_nat (S k)) 4) as [Hgt | Hgt]; [| lia].
    replace (0 + 4 * Z.of_nat (S k) - 1) with (3 + Z.of_nat k * 4) by lia.
    rewrite Z.mod_add by lia. reflexivity.
Qed.

(** *** Deleting a stream *)

Lemma indexOf_Some (l : list ref) (r : ref) (i : nat) :
  indexOf l r = Some i -> l !! i = Some r.
Proof.
  revert i. induction l as [| x l IH]; intros i H; simpl in H; [discriminate |].
  destruct (Nat.eqb x r) eqn:He.
  - injection H as <-. apply Nat.eqb_eq in He. subst x. reflexivity.
  - destruct (indexOf l r) as [i' |]; [| discriminate].
    injection H as <-. simpl. apply IH. reflexivity.
Qed.

Lemma indexOf_None (l : list ref) (r : ref) : indexOf l r = None -> r ∉ l.
Proof.
  induction l as [| x l IH]; intros H Hin; simpl in H; [inversion Hin |].
  destruct (Nat.eqb x r) eqn:He; [discriminate |].
  apply Nat.eqb_neq in He.
  destruct (indexOf l r) as [i' |]; [discriminate |].
  apply elem_of_cons in Hin. destruct Hin as [-> | Hin]; [congruence |].
  exact (IH eq_refl Hin).
Qed.

(** X10: [deleteStream] by ID removes that stream and no other.  From
    every state of the manager, the ID deleted is not held afterwards,
    every other ID is held exactly if it was before, and neither the
    stream objects nor the events emitted change. *)
Theorem deleteStream_removes (streamId : Bignum.t) (m : StreamManager) :
  reachable m ->
  let m' := deleteStream streamId m in
  hasStream m' streamId = false /\
  (forall other, other <> streamId -> hasStream m' other = hasStream m other) /\
  objects m' = objects m /\ emitted m' = emitted m.
Proof.
  intros Hreach m'. destruct (reachable_inv m Hreach) as [Hl Hnd].
  subst m'. unfold deleteStream.
  destruct (_getStream m streamId) as [r |] eqn:Hg.
  - apply _getStream_Some in Hg. destruct Hg as [Hr [s [Hs Hid]]].
    unfold deleteStream_object.
    destruct (indexOf (streams m) r) as [i |] eqn:Hi.
    + apply indexOf_Some in Hi.
      assert (Hids : stream_ids m
                     = omap (id_of m) (take i (streams m)) ++
                       streamId :: omap (id_of m) (drop (S i) (streams m))).
      { unfold stream_ids at 1. rewrite <- (take_drop_middle _ _ _ Hi) at 1.
        rewrite omap_app. f_equal. simpl. unfold id_of at 1. rewrite Hs. simpl.
        rewrite Hid. reflexivity. }
      assert (Hids' : stream_ids (with_streams (delete i (streams m)) m)
                      = omap (id_of m) (take i (streams m)) ++
                        omap (id_of m) (drop (S i) (streams m))).
      { unfold stream_ids. cbn [streams with_streams].
        rewrite delete_take_drop, omap_app. reflexivity. }
      rewrite Hids in Hnd. apply NoDup_app in Hnd.
      destruct Hnd as [_ [Hdisj Hnd]]. apply NoDup_cons in Hnd.
      destruct Hnd as [Hnotin _].
      split.
      { apply hasStream_false. rewrite Hids'. intros Hin.
        apply elem_of_app in Hin. destruct Hin as [Hin | Hin].
        - apply (Hdisj _ Hin). left.
        - exact (Hnotin Hin). }
      split; [| split; reflexivity].
      intros other Hother. apply Bool.eq_iff_eq_true.
      rewrite !hasStream_true, Hids, Hids', !elem_of_app, elem_of_cons.
      split; [intros [H | H]; auto | intros [H | [H | H]]; auto; contradiction].
    + apply indexOf_None in Hi. contradiction.
  - split; [unfold hasStream; rewrite Hg; reflexivity |].
    split; [reflexivity | split; reflexivity].
Qed.

Lemma deleteStream_removes_witness :
  let m' := deleteStream 0 two_streams in
  hasStream m' 0 = false /\
  (forall other, other <> 0 -> hasStream m' other = hasStream two_streams other) /\
  objects m' = objects two_streams /\ emitted m' = emitted two_streams.
Proof. exact (deleteStream_removes 0 two_streams two_streams_reachable). Defined.

(** *** Asking again *)

Lemma _getStream_fold_live (objs : list Stream) (s : Stream) (streamId : Bignum.t)
    (refs : list ref) (acc : option ref) :
  (forall r, r ∈ refs -> (r < length objs)%nat) ->
  fold_left (_getStream_step (objs ++ [s]) streamId) refs acc
  = fold_left (_getStream_step objs streamId) refs acc.
Proof.
  revert acc. induction refs as [| x refs IH]; intros acc H; simpl; [reflexivity |].
  rewrite IH by (intros r Hr; apply H; right; exact Hr).
  f_equal. unfold _getStream_step.
  rewrite lookup_app_l by (apply H; left). reflexivity.
Qed.

Lemma _getStream_fresh (m : StreamManager) (s : Stream) (e : EndpointType)
    (l r : option Bignum.t) (events : list Event) (streamId : Bignum.t) :
  live m ->
  _getStream (mkStreamManager (objects m ++ [s]) (streams m ++ [length (objects m)])
                e l r events) streamId
  = if Bignum.equals (getStreamID s) streamId then Some (length (objects m))
    else _getStream m streamId.
Proof.
  intros Hl. unfold _getStream. cbn [objects streams].
  rewrite fold_left_app. simpl. unfold _getStream_step at 1.
  rewrite list_lookup_middle by reflexivity.
  rewrite _getStream_fold_live by exact Hl. reflexivity.
Qed.

(** X11: asking [getStream] twice for one ID gives the same stream object
    both times, and the second call changes nothing: no second object,
    no second INITIALIZED_STREAM event.  Creating the stream does not
    disturb the others: every other ID is looked up to the same object
    as before, or to none as before. *)
Theorem getStream_idempotent (streamId : Bignum.t) (m : StreamManager) :
  reachable m ->
  let m' := fst (getStream streamId m) in
  let stream := snd (getStream streamId m) in
  getStream streamId m' = (m', stream) /\
  forall other, other <> streamId -> _getStream m' other = _getStream m other.
Proof.
  intros Hreach m' stream. destruct (reachable_inv m Hreach) as [Hl _].
  subst m' stream. unfold getStream at 2 3 4 5.
  destruct (_getStream m streamId) as [r |] eqn:Hg; cbn [fst snd].
  - split; [unfold getStream; rewrite Hg |]; reflexivity.
  - rewrite (initializeStream_fresh _ _ Hl Hg). cbn [fst snd]. split.
    + unfold getStream. rewrite (_getStream_fresh _ _ _ _ _ _ _ Hl).
      cbn [getStreamID]. unfold Bignum.equals. rewrite Z.eqb_refl. reflexivity.
    + intros other Hother. rewrite (_getStream_fresh _ _ _ _ _ _ _ Hl).
      cbn [getStreamID]. unfold Bignum.equals.
      destruct (Z.eqb_spec streamId other); [congruence | reflexivity].
Qed.

Lemma getStream_idempotent_witness :
  let m' := fst (getStream 8 two_streams) in
  let stream := snd (getStream 8 two_streams) in
  getStream 8 m' = (m', stream) /\
  forall other, other <> 8 -> _getStream m' other = _getStream two_streams other.
Proof. exact (getStream_idempotent 8 two_streams two_streams_reachable). Defined.

End StreamManager.

(** ** The congestion controller (congestion-control/congestion.control.ts) *)

Module CongestionControl.

(** A packet as the controller sees it: whether it only acknowledges, the
    length of its serialized form, and the packet number in its header. *)
Record BasePacket : Type := mkBasePacket {
  isAckOnly : bool;
  byteLength : N;
  getPacketNumber : Bignum.t
}.

Definition setPacketNumber (packetNumber : Bignum.t) (p : BasePacket) : BasePacket :=
  mkBasePacket (isAckOnly p) (byteLength p) packetNumber.

(** Modelled from the spec: [Bignum.infinity()] is in types/bignum.ts,
    which is not among the sources; "ssthresh (initialized to infinity)"
    is above every window. *)
Inductive Threshold : Type := Infinity | Finite (bytes : Bignum.t).

Definition lessThan_threshold (a : Bignum.t) (b : Threshold) : bool :=
  match b with
  | Infinity => true
  | Finite bytes => Bignum.lessThan a bytes
  end.

Definition DEFAULT_MSS : Z := 1460.
Definition INITIAL_WINDOW : Z := DEFAULT_MSS * 10.
Definition MINIMUM_WINDOW : Z := DEFAULT_MSS * 2.

(** The controller's fields, and the packet-number counter of the
    connection it asks for the next number (modelled from the spec: "each
    sent packet is assigned the next number in its space"). *)
Record CongestionControl : Type := mkCongestionControl {
  packetsQueue : list BasePacket;
  bytesInFlight : Bignum.t;
  congestionWindow : Bignum.t;
  endOfRecovery : Bignum.t;
  sshtresh : Threshold;
  packetNumber : Bignum.t
}.

(** What [sendPackets] hands to the socket and announces with
    PACKET_SENT, together with the counters it was sent under. *)
Record Sent : Type := mkSent {
  sent_packet : BasePacket;
  sent_bytesInFlight : Bignum.t;
  sent_congestionWindow : Bignum.t
}.

Definition new : CongestionControl :=
  mkCongestionControl [] 0 INITIAL_WINDOW 0 Infinity 0.

Definition with_packetsQueue (q : list BasePacket) (cc : CongestionControl) : CongestionControl :=
  mkCongestionControl q (bytesInFlight cc) (congestionWindow cc)
    (endOfRecovery cc) (sshtresh cc) (packetNumber cc).

Definition with_bytesInFlight (b : Bignum.t) (cc : CongestionControl) : CongestionControl :=
  mkCongestionControl (packetsQueue cc) b (congestionWindow cc)
    (endOfRecovery cc) (sshtresh cc) (packetNumber cc).

Definition with_congestionWindow (w : Bignum.t) (cc : CongestionControl) : CongestionControl :=
  mkCongestionControl (packetsQueue cc) (bytesInFlight cc) w
    (endOfRecovery cc) (sshtresh cc) (packetNumber cc).

Definition with_endOfRecovery (e : Bignum.t) (cc : CongestionControl) : CongestionControl :=
  mkCongestionControl (packetsQueue cc) (bytesInFlight cc) (congestionWindow cc)
    e (sshtresh cc) (packetNumber cc).

Definition with_sshtresh (t : Threshold) (cc : CongestionControl) : CongestionControl :=
  mkCongestionControl (packetsQueue cc) (bytesInFlight cc) (congestionWindow cc)
    (endOfRecovery cc) t (packetNumber cc).

Definition with_packetNumber (n : Bignum.t) (cc : CongestionControl) : CongestionControl :=
  mkCongestionControl (packetsQueue cc) (bytesInFlight cc) (congestionWindow cc)
    (endOfRecovery cc) (sshtresh cc) n.

Definition inRecovery (cc : CongestionControl) (packetNumber : Bignum.t) : bool :=
  Bignum.lessThanOrEqual packetNumber (endOfRecovery cc).

Definition onPacketSent (packetSent : BasePacket) (cc : CongestionControl) : CongestionControl :=
  if negb (isAckOnly packetSent) then
    let bytesSent := Z.of_N (byteLength packetSent) in
    with_bytesInFlight (Bignum.add (bytesInFlight cc) bytesSent) cc
  else cc.

(** Sent while [bytesInFlight] was below the window. *)
Definition gated (s : Sent) : Prop := sent_bytesInFlight s < sent_congestionWindow s.

(** The window is below the threshold (slow start). *)
Definition below (window : Bignum.t) (threshold : Threshold) : Prop :=
  match threshold with
  | Infinity => True
  | Finite bytes => window < bytes
  end.

Lemma lessThan_threshold_true (w : Bignum.t) (t : Threshold) :
  lessThan_threshold w t = true <-> below w t.
Proof.
  destruct t as [| b]; simpl; [tauto |]. unfold Bignum.lessThan. apply Z.ltb_lt.
Qed.

Lemma lessThan_threshold_false (w : Bignum.t) (t : Threshold) :
  lessThan_threshold w t = false <-> ~ below w t.
Proof.
  rewrite <- lessThan_threshold_true. destruct (lessThan_threshold w t); split; congruence.
Qed.

Section Controller.

(** [emit] runs its listeners before it returns.  The controller hooks
    [onPacketSent] to the connection's PACKET_SENT event; whether the
    connection raises that event when the controller announces a packet
    is decided in quicker/connection.ts, which is not among the sources. *)
Variable relays : bool.

(** [Bignum.multiply] by LOSS_REDUCTION_FACTOR = 0.5, which is not an
    integer: how the library rounds is its own affair. *)
Variable multiply_LOSS_REDUCTION_FACTOR : Bignum.t -> Bignum.t.

Definition emit_PACKET_SENT (packet : BasePacket) (cc : CongestionControl) : CongestionControl :=
  if relays then onPacketSent packet cc else cc.

(** The loop of [sendPackets]; [queue] is [packetsQueue cc] throughout. *)
Fixpoint sendPackets_from (queue : list BasePacket) (cc : CongestionControl)
    : CongestionControl * list Sent :=
  match queue with
  | [] => (cc, [])
  | packet :: queue' =>
      if Bignum.lessThan (bytesInFlight cc) (congestionWindow cc) then
        let next := Bignum.add (packetNumber cc) 1 in
        let packet := setPacketNumber next packet in
        let cc' := with_packetNumber next (with_packetsQueue queue' cc) in
        let (cc'', sent) := sendPackets_from queue' (emit_PACKET_SENT packet cc') in
        (cc'', mkSent packet (bytesInFlight cc) (congestionWindow cc) :: sent)
      else (cc, [])
  end.

Definition sendPackets (cc : CongestionControl) : CongestionControl * list Sent :=
  sendPackets_from (packetsQueue cc) cc.

(** The window after an acknowledgement of [packetByteSize] bytes outside
    recovery. *)
Definition grow (packetByteSize : Z) (cc : CongestionControl) : CongestionControl :=
  if lessThan_threshold (congestionWindow cc) (sshtresh cc) then
    with_congestionWindow (Bignum.add (congestionWindow cc) packetByteSize) cc
  else
    with_congestionWindow
      (Bignum.add (congestionWindow cc)
         (Bignum.divide (DEFAULT_MSS * packetByteSize) (congestionWindow cc))) cc.

Definition onPacketAcked (ackedPacket : BasePacket) (cc : CongestionControl)
    : CongestionControl * list Sent :=
  if isAckOnly ackedPacket then (cc, [])
  else
    let packetByteSize := Z.of_N (byteLength ackedPacket) in
    let cc := with_bytesInFlight (Bignum.subtract (bytesInFlight cc) packetByteSize) cc in
    if inRecovery cc (getPacketNumber ackedPacket) then (cc, [])
    else sendPackets (grow packetByteSize cc).

(** The body of the [forEach] of [onPacketsLost], on the controller and
    [largestLost]. *)
Definition lose (acc : CongestionControl * Bignum.t) (lostPacket : BasePacket)
    : CongestionControl * Bignum.t :=
  let (cc, largestLost) := acc in
  if isAckOnly lostPacket then acc
  else
    let packetByteSize := Z.of_N (byteLength lostPacket) in
    let cc := with_bytesInFlight (Bignum.subtract (bytesInFlight cc) packetByteSize) cc in
    if Bignum.greaterThan (getPacketNumber lostPacket) largestLost
    then (cc, getPacketNumber lostPacket)
    else (cc, largestLost).

Definition onPacketsLost (lostPackets : list BasePacket) (cc : CongestionControl)
    : CongestionControl * list Sent :=
  let (cc, largestLost) := fold_left lose lostPackets (cc, 0) in
  let cc :=
    if negb (inRecovery cc largestLost) then
      let cc := with_endOfRecovery largestLost cc in
      let cc := with_congestionWindow
                  (multiply_LOSS_REDUCTION_FACTOR (congestionWindow cc)) cc in
      let cc := with_congestionWindow
                  (Bignum.max (congestionWindow cc) MINIMUM_WINDOW) cc in
      with_sshtresh (Finite (congestionWindow cc)) cc
    else cc in
  sendPackets cc.

Definition onRetransmissionTimeoutVerified (cc : CongestionControl) : CongestionControl :=
  with_congestionWindow MINIMUM_WINDOW cc.

Definition queuePackets (packets : list BasePacket) (cc : CongestionControl)
    : CongestionControl * list Sent :=
  sendPackets (with_packetsQueue (packetsQueue cc ++ packets) cc).

(** The events a controller lives through. *)
Inductive Event : Type :=
| PacketSent (packetSent : BasePacket)
| PacketAcked (ackedPacket : BasePacket)
| PacketsLost (lostPackets : list BasePacket)
| RetransmissionTimeoutVerified
| QueuePackets (packets : list BasePacket).

Definition handle (cc : CongestionControl) (e : Event) : CongestionControl :=
  match e with
  | PacketSent p => onPacketSent p cc
  | PacketAcked p => fst (onPacketAcked p cc)
  | PacketsLost ps => fst (onPacketsLost ps cc)
  | RetransmissionTimeoutVerified => onRetransmissionTimeoutVerified cc
  | QueuePackets ps => fst (queuePackets ps cc)
  end.

Inductive reachable : CongestionControl -> Prop :=
| reach_new : reachable new
| reach_handle cc e : reachable cc -> reachable (handle cc e).

(** The bytes the packets sent add to [bytesInFlight] when relayed. *)
Definition flight (sent : list Sent) : Z :=
  fold_right (fun s acc => (if isAckOnly (sent_packet s) then 0
                            else Z.of_N (byteLength (sent_packet s))) + acc) 0 sent.

(** *** The send loop *)

Lemma emit_PACKET_SENT_fields (p : BasePacket) (cc : CongestionControl) :
  packetsQueue (emit_PACKET_SENT p cc) = packetsQueue cc /\
  congestionWindow (emit_PACKET_SENT p cc) = congestionWindow cc /\
  endOfRecovery (emit_PACKET_SENT p cc) = endOfRecovery cc /\
  sshtresh (emit_PACKET_SENT p cc) = sshtresh cc /\
  bytesInFlight (emit_PACKET_SENT p cc)
  = bytesInFlight cc
    + (if relays then if isAckOnly p then 0 else Z.of_N (byteLength p) else 0).
Proof.
  unfold emit_PACKET_SENT, onPacketSent, Bignum.add.
  destruct relays; [destruct (isAckOnly p) |]; simpl; repeat split; lia.
Qed.

(** The loop changes neither the window nor the recovery state, adds to
    [bytesInFlight] what the relayed packets weigh, and sends under the
    guard only. *)
Lemma sendPackets_from_spec (queue : list BasePacket) (cc : CongestionControl) :
  let r := sendPackets_from queue cc in
  congestionWindow (fst r) = congestionWindow cc /\
  endOfRecovery (fst r) = endOfRecovery cc /\
  sshtresh (fst r) = sshtresh cc /\
  bytesInFlight (fst r)
  = bytesInFlight cc + (if relays then flight (snd r) else 0) /\
  Forall gated (snd r).
Proof.
  revert cc. induction queue as [| packet queue IH]; intros cc; simpl.
  - repeat split; try constructor. destruct relays; simpl; lia.
  - unfold Bignum.lessThan.
    destruct (bytesInFlight cc <? congestionWindow cc) eqn:Hlt; simpl.
    2: { repeat split; try constructor. destruct relays; simpl; lia. }
    apply Z.ltb_lt in Hlt.
    set (packet' := setPacketNumber (Bignum.add (packetNumber cc) 1) packet).
    set (cc' := with_packetNumber (Bignum.add (packetNumber cc) 1)
                  (with_packetsQueue queue cc)).
    specialize (IH (emit_PACKET_SENT packet' cc')).
    destruct (emit_PACKET_SENT_fields packet' cc') as [_ [Hw [He [Ht Hb]]]].
    destruct (sendPackets_from queue (emit_PACKET_SENT packet' cc')) as [cc'' sent].
    simpl in IH, Hw, He, Ht, Hb |- *. destruct IH as [IHw [IHe [IHt [IHb IHg]]]].
    split; [congruence |]. split; [congruence |]. split; [congruence |].
    split.
    + rewrite IHb, Hb. destruct relays; simpl; [| lia].
      destruct (isAckOnly packet); lia.
    + constructor; [exact Hlt | exact IHg].
Qed.

Lemma sendPackets_from_blocked (queue : list BasePacket) (cc : CongestionControl) :
  congestionWindow cc <= bytesInFlight cc -> sendPackets_from queue cc = (cc, []).
Proof.
  intros H. destruct queue as [| packet queue]; simpl; [reflexivity |].
  unfold Bignum.lessThan.
  destruct (bytesInFlight cc <? congestionWindow cc) eqn:Hlt; [| reflexivity].
  apply Z.ltb_lt in Hlt. lia.
Qed.

Lemma sendPackets_from_nothing (cc : CongestionControl) :
  sendPackets_from [] cc = (cc, []).
Proof. reflexivity. Qed.

(** *** Acknowledgements *)

(** C5 (amended): an acknowledged packet of [s] bytes.  An ack-only
    packet changes nothing.  Otherwise [bytesInFlight] goes down by [s] (and up again by
    what the send loop at the end of the same call puts in flight, which
    is nothing when the queue is empty); a packet number at or below
    [endOfRecovery] leaves the window alone and sends nothing; above it,
    the window grows by exactly [s] while below [sshtresh], and by
    exactly [DEFAULT_MSS * s / congestionWindow] otherwise. *)
Theorem onPacketAcked_spec (ackedPacket : BasePacket) (cc : CongestionControl) :
  let s := Z.of_N (byteLength ackedPacket) in
  let after := fst (onPacketAcked ackedPacket cc) in
  let sent := snd (onPacketAcked ackedPacket cc) in
  DEFAULT_MSS = 1460 /\
  (isAckOnly ackedPacket = true -> after = cc /\ sent = []) /\
  (isAckOnly ackedPacket = false ->
   bytesInFlight after
   = bytesInFlight cc - s + (if relays then flight sent else 0) /\
   (packetsQueue cc = [] -> bytesInFlight after = bytesInFlight cc - s) /\
   (getPacketNumber ackedPacket <= endOfRecovery cc ->
    after = with_bytesInFlight (bytesInFlight cc - s) cc /\ sent = []) /\
   (endOfRecovery cc < getPacketNumber ackedPacket ->
    below (congestionWindow cc) (sshtresh cc) ->
    congestionWindow after = congestionWindow cc + s) /\
   (endOfRecovery cc < getPacketNumber ackedPacket ->
    ~ below (congestionWindow cc) (sshtresh cc) ->
    congestionWindow after
    = congestionWindow cc + Z.quot (DEFAULT_MSS * s) (congestionWindow cc))).
Proof.
  intros s after sent. subst after sent. unfold onPacketAcked.
  split; [reflexivity |].
  destruct (isAckOnly ackedPacket) eqn:Hack.
  { split; [intros _; split; reflexivity | discriminate]. }
  split; [discriminate |]. intros _.
  fold s. unfold Bignum.subtract.
  set (cc1 := with_bytesInFlight (bytesInFlight cc - s) cc).
  unfold inRecovery, Bignum.lessThanOrEqual.
  change (endOfRecovery cc1) with (endOfRecovery cc).
  destruct (getPacketNumber ackedPacket <=? endOfRecovery cc) eqn:Hrec.
  { apply Z.leb_le in Hrec. cbn [fst snd].
    split; [destruct relays; simpl; lia |].
    split; [intros _; reflexivity |].
    split; [intros _; split; reflexivity |].
    split; intros; lia. }
  apply Z.leb_gt in Hrec.
  unfold sendPackets.
  pose proof (sendPackets_from_spec (packetsQueue (grow s cc1)) (grow s cc1))
    as [Hw [_ [_ [Hb _]]]].
  assert (Hgb : bytesInFlight (grow s cc1) = bytesInFlight cc - s).
  { unfold grow. destruct (lessThan_threshold _ _); reflexivity. }
  assert (Hgq : packetsQueue (grow s cc1) = packetsQueue cc).
  { unfold grow. destruct (lessThan_threshold _ _); reflexivity. }
  split; [rewrite Hb, Hgb; reflexivity |].
  split.
  { intros Hq. rewrite Hgq, Hq, sendPackets_from_nothing. cbn [fst]. exact Hgb. }
  split; [intros; lia |].
  rewrite Hw. unfold grow.
  change (congestionWindow cc1) with (congestionWindow cc).
  change (sshtresh cc1) with (sshtresh cc).
  split; intros _ Hbelow.
  - apply lessThan_threshold_true in Hbelow. rewrite Hbelow. reflexivity.
  - apply lessThan_threshold_false in Hbelow. rewrite Hbelow. reflexivity.
Qed.

(** *** Losses and the floor of the window *)

(** The largest packet number among the lost packets that are not
    ack-only (0 if there is none). *)
Definition largestLost (lostPackets : list BasePacket) : Bignum.t :=
  fold_left (fun largest p =>
               if isAckOnly p then largest
               else if getPacketNumber p >? largest then getPacketNumber p else largest)
            lostPackets 0.

Lemma lose_fold (lostPackets : list BasePacket) (cc : CongestionControl) (largest : Bignum.t) :
  let r := fold_left lose lostPackets (cc, largest) in
  congestionWindow (fst r) = congestionWindow cc /\
  endOfRecovery (fst r) = endOfRecovery cc /\
  snd r = fold_left (fun largest p =>
                       if isAckOnly p then largest
                       else if getPacketNumber p >? largest
                            then getPacketNumber p else largest)
                    lostPackets largest.
Proof.
  revert cc largest. induction lostPackets as [| p ps IH]; intros cc largest; simpl.
  - auto.
  - destruct (isAckOnly p); [apply IH |].
    unfold Bignum.greaterThan.
    destruct (getPacketNumber p >? largest);
      match goal with
      | |- context [fold_left lose ps (?c, ?l)] => exact (IH c l)
      end.
Qed.

(** The window [onPacketsLost] leaves. *)
Lemma onPacketsLost_window (lostPackets : list BasePacket) (cc : CongestionControl) :
  congestionWindow (fst (onPacketsLost lostPackets cc))
  = if largestLost lostPackets <=? endOfRecovery cc
    then congestionWindow cc
    else Z.max (multiply_LOSS_REDUCTION_FACTOR (congestionWindow cc)) MINIMUM_WINDOW.
Proof.
  unfold onPacketsLost, largestLost.
  pose proof (lose_fold lostPackets cc 0) as Hfold. cbv zeta in Hfold.
  match goal with
  | |- context [let (_, _) := ?f in _] =>
      change (fold_left lose lostPackets (cc, 0)) with f in Hfold;
      destruct f as [cc1 largest]
  end.
  destruct Hfold as [Hw [He Hl]].
  cbn [fst snd] in *. rewrite <- Hl.
  unfold sendPackets, inRecovery, Bignum.lessThanOrEqual.
  match goal with
  | |- congestionWindow (fst (sendPackets_from ?q ?c)) = _ =>
      pose proof (sendPackets_from_spec q c) as [Hs _]; rewrite Hs
  end.
  rewrite He.
  destruct (_ <=? endOfRecovery cc); simpl; [exact Hw |].
  unfold Bignum.max. rewrite Hw. reflexivity.
Qed.

Lemma handle_floor (cc : CongestionControl) (e : Event) :
  MINIMUM_WINDOW <= congestionWindow cc ->
  MINIMUM_WINDOW <= congestionWindow (handle cc e).
Proof.
  intros H. destruct e as [p | p | ps | | ps]; simpl.
  - unfold onPacketSent. destruct (negb (isAckOnly p)); exact H.
  - unfold onPacketAcked. destruct (isAckOnly p); [exact H |].
    destruct (inRecovery _ _); [exact H |].
    unfold sendPackets.
    match goal with
    | |- _ <= congestionWindow (fst (sendPackets_from ?q ?c)) =>
        pose proof (sendPackets_from_spec q c) as [Hs _]; rewrite Hs
    end.
    unfold grow, Bignum.add, Bignum.divide, Bignum.subtract, MINIMUM_WINDOW, DEFAULT_MSS in *.
    destruct (lessThan_threshold _ _); simpl; [lia |].
    assert (0 <= Z.quot (1460 * Z.of_N (byteLength p)) (congestionWindow cc))
      by (apply Z.quot_pos; lia).
    lia.
  - rewrite onPacketsLost_window.
    destruct (_ <=? _); [exact H | lia].
  - lia.
  - unfold queuePackets, sendPackets.
    match goal with
    | |- _ <= congestionWindow (fst (sendPackets_from ?q ?c)) =>
        pose proof (sendPackets_from_spec q c) as [Hs _]; rewrite Hs
    end.
    exact H.
Qed.

(** C6: the window never falls below two segments.  It starts at ten
    segments (14600 bytes); in every state reached from there by packets
    sent, acknowledged or lost, verified retransmission timeouts and
    queued packets it is at least 2 * DEFAULT_MSS = 2920; a loss above
    [endOfRecovery] sets it to the reduced window floored at the minimum,
    whatever the reduction yields; a verified timeout sets it to exactly
    the minimum. *)
Theorem congestionWindow_floor :
  congestionWindow new = 10 * DEFAULT_MSS /\ 10 * DEFAULT_MSS = 14600 /\
  2 * DEFAULT_MSS = 2920 /\
  (forall cc, reachable cc -> 2 * DEFAULT_MSS <= congestionWindow cc) /\
  (forall lostPackets cc,
     endOfRecovery cc < largestLost lostPackets ->
     congestionWindow (fst (onPacketsLost lostPackets cc))
     = Z.max (multiply_LOSS_REDUCTION_FACTOR (congestionWindow cc)) (2 * DEFAULT_MSS) /\
     2 * DEFAULT_MSS <= congestionWindow (fst (onPacketsLost lostPackets cc))) /\
  (forall cc,
     congestionWindow (onRetransmissionTimeoutVerified cc) = 2 * DEFAULT_MSS).
Proof.
  split; [reflexivity |]. split; [reflexivity |]. split; [reflexivity |].
  split; [| split].
  - intros cc Hreach.
    change (2 * DEFAULT_MSS) with MINIMUM_WINDOW.
    induction Hreach as [| cc e _ IH].
    + unfold MINIMUM_WINDOW, new, INITIAL_WINDOW, DEFAULT_MSS.
      cbn [congestionWindow]. lia.
    + apply handle_floor. exact IH.
  - intros lostPackets cc Hnew.
    rewrite onPacketsLost_window.
    apply Z.leb_gt in Hnew. rewrite Hnew.
    change (2 * DEFAULT_MSS) with MINIMUM_WINDOW.
    split; [reflexivity | lia].
  - intros cc. reflexivity.
Qed.

(** *** Gating *)

(** C7: nothing leaves the queue unless [bytesInFlight] is below the
    window.  Every packet [sendPackets] sends, on its own or at the end
    of [queuePackets], [onPacketAcked] or [onPacketsLost], is sent in a
    state with [bytesInFlight < congestionWindow]; and with
    [bytesInFlight >= congestionWindow], [queuePackets] appends to the
    queue and sends nothing. *)
Theorem sendPackets_gated :
  (forall cc, Forall gated (snd (sendPackets cc))) /\
  (forall packets cc, Forall gated (snd (queuePackets packets cc))) /\
  (forall p cc, Forall gated (snd (onPacketAcked p cc))) /\
  (forall lostPackets cc, Forall gated (snd (onPacketsLost lostPackets cc))) /\
  (forall packets cc,
     congestionWindow cc <= bytesInFlight cc ->
     queuePackets packets cc
     = (with_packetsQueue (packetsQueue cc ++ packets) cc, [])).
Proof.
  assert (Hsend : forall cc, Forall gated (snd (sendPackets cc))).
  { intros cc. unfold sendPackets.
    apply (sendPackets_from_spec (packetsQueue cc) cc). }
  split; [exact Hsend |]. split; [| split; [| split]].
  - intros packets cc. apply Hsend.
  - intros p cc. unfold onPacketAcked.
    destruct (isAckOnly p); [constructor |].
    destruct (inRecovery _ _); [constructor | apply Hsend].
  - intros lostPackets cc. unfold onPacketsLost.
    match goal with
    | |- context [let (_, _) := ?f in _] => destruct f as [cc1 largest]
    end.
    apply Hsend.
  - intros packets cc Hfull. unfold queuePackets, sendPackets.
    apply sendPackets_from_blocked. exact Hfull.
Qed.

(** *** Order and numbering of what is sent *)

(** The packets of a list with the packet numbers after [n], in order. *)
Fixpoint numbered (n : Bignum.t) (packets : list BasePacket) : list BasePacket :=
  match packets with
  | [] => []
  | packet :: packets' =>
      setPacketNumber (Bignum.add n 1) packet :: numbered (Bignum.add n 1) packets'
  end.

(** The bytes a list of packets weighs in [bytesInFlight]. *)
Definition weight (packets : list BasePacket) : Z :=
  fold_right (fun p acc => (if isAckOnly p then 0 else Z.of_N (byteLength p)) + acc)
             0 packets.

Lemma emit_PACKET_SENT_packetNumber (p : BasePacket) (cc : CongestionControl) :
  packetNumber (emit_PACKET_SENT p cc) = packetNumber cc.
Proof.
  unfold emit_PACKET_SENT, onPacketSent.
  destruct relays; [destruct (isAckOnly p) |]; reflexivity.
Qed.

Lemma sendPackets_from_order (queue : list BasePacket) (cc : CongestionControl) :
  packetsQueue cc = queue ->
  let r := sendPackets_from queue cc in
  let n := length (snd r) in
  map sent_packet (snd r) = numbered (packetNumber cc) (take n queue) /\
  packetsQueue (fst r) = drop n queue /\
  packetNumber (fst r) = packetNumber cc + Z.of_nat n /\
  (packetsQueue (fst r) = [] \/ congestionWindow (fst r) <= bytesInFlight (fst r)).
Proof.
  revert cc. induction queue as [| packet queue IH]; intros cc Hq.
  - cbn. rewrite Hq. repeat split; try reflexivity; [lia | left; reflexivity].
  - cbn [sendPackets_from]. unfold Bignum.lessThan.
    destruct (bytesInFlight cc <? congestionWindow cc) eqn:Hlt.
    2: { apply Z.ltb_ge in Hlt. cbn. rewrite Hq.
         repeat split; try reflexivity; [lia | right; exact Hlt]. }
    set (packet' := setPacketNumber (Bignum.add (packetNumber cc) 1) packet).
    set (cc' := with_packetNumber (Bignum.add (packetNumber cc) 1)
                  (with_packetsQueue queue cc)).
    assert (Hq' : packetsQueue (emit_PACKET_SENT packet' cc') = queue).
    { rewrite (proj1 (emit_PACKET_SENT_fields packet' cc')). reflexivity. }
    specialize (IH (emit_PACKET_SENT packet' cc') Hq').
    rewrite emit_PACKET_SENT_packetNumber in IH.
    destruct (sendPackets_from queue (emit_PACKET_SENT packet' cc')) as [cc'' sent].
    cbn [fst snd length map take drop numbered] in IH |- *.
    destruct IH as [IHs [IHq [IHn IHw]]].
    split; [rewrite IHs; reflexivity |].
    split; [exact IHq |].
    split; [rewrite IHn; subst cc'; cbn [packetNumber with_packetNumber];
            unfold Bignum.add; lia |].
    exact IHw.
Qed.

(** X12: packets leave the queue in the order they were queued, none is
    skipped or sent twice, and they carry consecutive packet numbers:
    the [n] packets one run of [sendPackets] sends are the first [n] of
    the queue, numbered from the connection's counter on; the queue
    keeps the rest and the counter has advanced by [n]. *)
Theorem sendPackets_in_order (cc : CongestionControl) :
  let r := sendPackets cc in
  let n := length (snd r) in
  map sent_packet (snd r) = numbered (packetNumber cc) (take n (packetsQueue cc)) /\
  packetsQueue (fst r) = drop n (packetsQueue cc) /\
  packetNumber (fst r) = packetNumber cc + Z.of_nat n.
Proof.
  intros r n.
  destruct (sendPackets_from_order (packetsQueue cc) cc eq_refl) as [H1 [H2 [H3 _]]].
  split; [exact H1 |]. split; [exact H2 | exact H3].
Qed.

(** X13: the send loop stops for one of two reasons only.  After
    [sendPackets], and so after [queuePackets], either the queue is
    empty or [bytesInFlight] has reached the window: no packet waits
    while there is room for it. *)
Theorem sendPackets_work_conserving :
  (forall cc,
     let cc' := fst (sendPackets cc) in
     packetsQueue cc' = [] \/ congestionWindow cc' <= bytesInFlight cc') /\
  (forall packets cc,
     let cc' := fst (queuePackets packets cc) in
     packetsQueue cc' = [] \/ congestionWindow cc' <= bytesInFlight cc').
Proof.
  split.
  - intros cc cc'.
    exact (proj2 (proj2 (proj2 (sendPackets_from_order (packetsQueue cc) cc eq_refl)))).
  - intros packets cc cc'. subst cc'. unfold queuePackets, sendPackets.
    exact (proj2 (proj2 (proj2 (sendPackets_from_order _ _ eq_refl)))).
Qed.

(** *** Losses *)

Lemma lose_fold_fields (lostPackets : list BasePacket) (cc : CongestionControl)
    (largest : Bignum.t) :
  let r := fold_left lose lostPackets (cc, largest) in
  sshtresh (fst r) = sshtresh cc /\
  packetsQueue (fst r) = packetsQueue cc /\
  packetNumber (fst r) = packetNumber cc /\
  bytesInFlight (fst r) = bytesInFlight cc - weight lostPackets.
Proof.
  revert cc largest. induction lostPackets as [| p ps IH]; intros cc largest.
  - cbn. repeat split; try reflexivity. lia.
  - cbn [fold_left weight fold_right lose]. fold (weight ps).
    destruct (isAckOnly p).
    + specialize (IH cc largest). cbv zeta in IH.
      destruct IH as [H1 [H2 [H3 H4]]]. repeat split; try assumption.
    + unfold Bignum.greaterThan, Bignum.subtract.
      destruct (getPacketNumber p >? largest);
        match goal with
        | |- context [fold_left lose ps (?c, ?l)] =>
            specialize (IH c l); cbv zeta in IH;
            destruct IH as [H1 [H2 [H3 H4]]]
        end;
        (repeat split; try assumption; rewrite H4;
         cbn [bytesInFlight with_bytesInFlight]; unfold Bignum.t in *; lia).
Qed.

Lemma largestLost_bound (lostPackets : list BasePacket) (largest bound : Bignum.t) :
  (forall p, In p lostPackets -> isAckOnly p = false -> getPacketNumber p <= bound) ->
  largest <= bound ->
  fold_left (fun largest p =>
               if isAckOnly p then largest
               else if getPacketNumber p >? largest then getPacketNumber p else largest)
            lostPackets largest <= bound.
Proof.
  revert largest. induction lostPackets as [| p ps IH]; intros largest Hall Hl.
  - exact Hl.
  - cbn [fold_left]. apply IH; [intros q Hq; apply Hall; right; exact Hq |].
    destruct (isAckOnly p) eqn:Hack; [exact Hl |].
    destruct (getPacketNumber p >? largest); [| exact Hl].
    apply Hall; [left; reflexivity | exact Hack].
Qed.

(** The controller's state after the [forEach] of [onPacketsLost] and the
    decision on the recovery epoch, before the send loop. *)
Lemma onPacketsLost_fields (lostPackets : list BasePacket) (cc : CongestionControl) :
  let after := fst (onPacketsLost lostPackets cc) in
  let sent := snd (onPacketsLost lostPackets cc) in
  bytesInFlight after
  = bytesInFlight cc - weight lostPackets + (if relays then flight sent else 0) /\
  (if largestLost lostPackets <=? endOfRecovery cc
   then endOfRecovery after = endOfRecovery cc /\ sshtresh after = sshtresh cc
   else endOfRecovery after = largestLost lostPackets /\
        sshtresh after = Finite (congestionWindow after)).
Proof.
  intros after sent. subst after sent. unfold onPacketsLost, largestLost.
  pose proof (lose_fold lostPackets cc 0) as Hfold. cbv zeta in Hfold.
  pose proof (lose_fold_fields lostPackets cc 0) as Hfields. cbv zeta in Hfields.
  match goal with
  | |- context [let (_, _) := ?f in _] =>
      change (fold_left lose lostPackets (cc, 0)) with f in Hfold, Hfields;
      destruct f as [cc1 largest]
  end.
  destruct Hfold as [Hw [He Hl]]. destruct Hfields as [Ht [_ [_ Hb]]].
  cbn [fst snd] in Hw, He, Hl, Ht, Hb. rewrite <- Hl.
  unfold sendPackets, inRecovery, Bignum.lessThanOrEqual.
  match goal with
  | |- context [sendPackets_from ?q ?c] =>
      pose proof (sendPackets_from_spec q c) as [Hsw [Hse [Hst [Hsb _]]]];
      rewrite Hsb, Hse, Hst, Hsw
  end.
  rewrite He.
  destruct (largest <=? endOfRecovery cc);
    cbn [negb bytesInFlight endOfRecovery sshtresh congestionWindow
         with_endOfRecovery with_congestionWindow with_sshtresh].
  - rewrite Hb. auto.
  - rewrite Hb. auto.
Qed.

Lemma handle_endOfRecovery (cc : CongestionControl) (e : Event) :
  endOfRecovery cc <= endOfRecovery (handle cc e).
Proof.
  destruct e as [p | p | ps | | ps]; cbn [handle].
  - unfold onPacketSent. destruct (negb (isAckOnly p)); cbn; lia.
  - unfold onPacketAcked. destruct (isAckOnly p); [cbn; lia |].
    destruct (inRecovery _ _); [cbn; lia |].
    unfold sendPackets.
    match goal with
    | |- _ <= endOfRecovery (fst (sendPackets_from ?q ?c)) =>
        pose proof (sendPackets_from_spec q c) as [_ [Hs _]]; rewrite Hs
    end.
    unfold grow. destruct (lessThan_threshold _ _); cbn; lia.
  - pose proof (onPacketsLost_fields ps cc) as [_ H]. cbv zeta in H.
    destruct (Z.leb_spec (largestLost ps) (endOfRecovery cc)) as [Hle | Hgt];
      destruct H as [H _]; rewrite H; lia.
  - cbn. lia.
  - unfold queuePackets, sendPackets.
    match goal with
    | |- _ <= endOfRecovery (fst (sendPackets_from ?q ?c)) =>
        pose proof (sendPackets_from_spec q c) as [_ [Hs _]]; rewrite Hs
    end.
    cbn. lia.
Qed.

Lemma reachable_endOfRecovery (cc : CongestionControl) :
  reachable cc -> 0 <= endOfRecovery cc.
Proof.
  induction 1 as [| cc e _ IH]; [cbn; lia |].
  pose proof (handle_endOfRecovery cc e). lia.
Qed.

(** X14: what a loss costs in bytes.  [onPacketsLost] takes the size of
    every lost packet that is not ack-only off [bytesInFlight] (and the
    send loop at its end adds what it puts in flight); ack-only packets
    among the lost count for nothing. *)
Theorem onPacketsLost_bytesInFlight (lostPackets : list BasePacket)
    (cc : CongestionControl) :
  let after := fst (onPacketsLost lostPackets cc) in
  let sent := snd (onPacketsLost lostPackets cc) in
  bytesInFlight after
  = bytesInFlight cc - weight lostPackets + (if relays then flight sent else 0).
Proof. exact (proj1 (onPacketsLost_fields lostPackets cc)). Qed.

(** X15: one reduction for each recovery epoch.  When every lost packet
    that counts was sent at or before [endOfRecovery], the loss belongs
    to the epoch already under way: window, threshold and
    [endOfRecovery] stay as they are. *)
Theorem loss_in_recovery (lostPackets : list BasePacket) (cc : CongestionControl) :
  reachable cc ->
  (forall p, In p lostPackets -> isAckOnly p = false ->
             getPacketNumber p <= endOfRecovery cc) ->
  let after := fst (onPacketsLost lostPackets cc) in
  congestionWindow after = congestionWindow cc /\
  sshtresh after = sshtresh cc /\
  endOfRecovery after = endOfRecovery cc.
Proof.
  intros Hreach Hall after. subst after.
  assert (Hle : largestLost lostPackets <= endOfRecovery cc).
  { apply largestLost_bound; [exact Hall | apply reachable_endOfRecovery; exact Hreach]. }
  apply Z.leb_le in Hle.
  pose proof (onPacketsLost_fields lostPackets cc) as [_ H]. cbv zeta in H.
  rewrite onPacketsLost_window. rewrite Hle in H |- *.
  destruct H as [He Ht]. auto.
Qed.

(** X16: a loss above [endOfRecovery] opens a new epoch at the largest
    packet number lost and puts the threshold at the reduced window, so
    that the controller is out of slow start; acknowledgements of
    packets sent up to that number then leave the window alone. *)
Theorem loss_starts_recovery (lostPackets : list BasePacket) (cc : CongestionControl) :
  endOfRecovery cc < largestLost lostPackets ->
  let after := fst (onPacketsLost lostPackets cc) in
  endOfRecovery after = largestLost lostPackets /\
  sshtresh after = Finite (congestionWindow after) /\
  ~ below (congestionWindow after) (sshtresh after) /\
  forall ackedPacket,
    getPacketNumber ackedPacket <= largestLost lostPackets ->
    congestionWindow (fst (onPacketAcked ackedPacket after)) = congestionWindow after.
Proof.
  intros Hnew after.
  pose proof (onPacketsLost_fields lostPackets cc) as [_ H]. cbv zeta in H.
  apply Z.leb_gt in Hnew. rewrite Hnew in H. destruct H as [He Ht].
  fold after in He, Ht.
  split; [exact He |]. split; [exact Ht |]. split.
  - rewrite Ht. cbn [below]. lia.
  - intros p Hp. unfold onPacketAcked.
    destruct (isAckOnly p); [reflexivity |].
    unfold inRecovery, Bignum.lessThanOrEqual.
    cbn [endOfRecovery with_bytesInFlight]. rewrite He.
    apply Z.leb_le in Hp. rewrite Hp. reflexivity.
Qed.

(** X17: the end of the recovery epoch never moves back: over any run of
    events, [endOfRecovery] only grows. *)
Theorem endOfRecovery_monotone (events : list Event) (cc : CongestionControl) :
  endOfRecovery cc <= endOfRecovery (fold_left handle events cc).
Proof.
  revert cc. induction events as [| e events IH]; intros cc; cbn [fold_left].
  - lia.
  - pose proof (handle_endOfRecovery cc e). specialize (IH (handle cc e)). lia.
Qed.

End Controller.

(** *** The controller at work *)

(** A connection that relays PACKET_SENT, a library that halves by
    integer division, a controller with one full-sized packet in flight
    and two queued. *)
Definition halve (w : Bignum.t) : Bignum.t := w / 2.

Definition segment (n : Z) : BasePacket := mkBasePacket false 1460 n.

Definition busy : CongestionControl :=
  mkCongestionControl [segment 0; segment 0] 1460 INITIAL_WINDOW 0 Infinity 1.

Lemma onPacketAcked_witness :
  congestionWindow (fst (onPacketAcked true (segment 1) busy))
  = congestionWindow busy + 1460.
Proof.
  apply (proj1 (proj2 (proj2 (proj2
           (proj2 (proj2 (onPacketAcked_spec true (segment 1) busy)) eq_refl))))).
  - reflexivity.
  - exact I.
Defined.

(** C5 (where the claim fails): outside recovery the handler ends in the
    send loop.  With 1460 bytes in flight and two packets of 1460 bytes
    queued, on a connection that reports sent packets back, the
    acknowledgement of a packet of 1460 bytes leaves 2920 bytes in
    flight, not 1460 - 1460 = 0. *)
Lemma onPacketAcked_counterexample :
  isAckOnly (segment 1) = false /\
  Z.of_N (byteLength (segment 1)) = 1460 /\
  bytesInFlight busy = 1460 /\
  bytesInFlight (fst (onPacketAcked true (segment 1) busy)) = 2920 /\
  map sent_packet (snd (onPacketAcked true (segment 1) busy))
  = [segment 2; segment 3].
Proof. repeat split; vm_compute; reflexivity. Qed.

Lemma congestionWindow_floor_witness :
  2 * DEFAULT_MSS
  <= congestionWindow
       (handle true halve
          (handle true halve (handle true halve new (QueuePackets [segment 0]))
             (PacketsLost [segment 1]))
          (PacketAcked (segment 2))).
Proof.
  apply (proj1 (proj2 (proj2 (proj2 (congestionWindow_floor true halve))))).
  repeat apply reach_handle. apply reach_new.
Defined.

Lemma sendPackets_gated_witness :
  queuePackets true [segment 0]
    (mkCongestionControl [] 14600 INITIAL_WINDOW 0 Infinity 10)
  = (mkCongestionControl [segment 0] 14600 INITIAL_WINDOW 0 Infinity 10, []).
Proof.
  apply (proj2 (proj2 (proj2 (proj2 (sendPackets_gated true halve))))).
  vm_compute. discriminate.
Defined.

(** With room in the window both queued packets leave, each under the
    guard, and are counted in flight as they go. *)
Lemma sendPackets_drains :
  sendPackets true busy
  = (mkCongestionControl [] 4380 INITIAL_WINDOW 0 Infinity 3,
     [mkSent (segment 2) 1460 INITIAL_WINDOW; mkSent (segment 3) 2920 INITIAL_WINDOW]).
Proof. vm_compute. reflexivity. Qed.

(** A loss above [endOfRecovery] halves the initial window to 7300 and
    sets the threshold there; acknowledgements then grow the window by
    [1460 * size / window]. *)
Lemma loss_then_avoidance :
  let lost := fst (onPacketsLost true halve [segment 5]
                     (mkCongestionControl [] 14600 INITIAL_WINDOW 0 Infinity 10)) in
  congestionWindow lost = 7300 /\ sshtresh lost = Finite 7300 /\
  endOfRecovery lost = 5 /\
  congestionWindow (fst (onPacketAcked true (segment 6) lost)) = 7300 + 292.
Proof. repeat split; vm_compute; reflexivity. Qed.

Lemma loss_in_recovery_witness :
  let cc := handle true halve
              (handle true halve new (QueuePackets [segment 0; segment 0; segment 0]))
              (PacketsLost [segment 3]) in
  let after := fst (onPacketsLost true halve [segment 2; segment 1] cc) in
  congestionWindow after = congestionWindow cc /\
  sshtresh after = sshtresh cc /\
  endOfRecovery after = endOfRecovery cc.
Proof.
  apply (loss_in_recovery true halve).
  - repeat apply reach_handle. apply reach_new.
  - intros p [<- | [<- | []]] _; vm_compute; discriminate.
Defined.

Lemma loss_starts_recovery_witness :
  let after := fst (onPacketsLost true halve [segment 4; segment 7; segment 5] busy) in
  endOfRecovery after = 7 /\
  sshtresh after = Finite (congestionWindow after) /\
  ~ below (congestionWindow after) (sshtresh after) /\
  forall ackedPacket,
    getPacketNumber ackedPacket <= 7 ->
    congestionWindow (fst (onPacketAcked true ackedPacket after)) = congestionWindow after.
Proof.
  apply (loss_starts_recovery true halve [segment 4; segment 7; segment 5] busy).
  vm_compute. reflexivity.
Defined.

End CongestionControl.

(** ** Buffers (Node's Buffer, as far as the header code uses it) *)

Module Buffer.

Abbreviation t := (list Z).

(** [Buffer.alloc(size)]: [size] zero bytes; a negative size throws. *)
Definition alloc (size : Z) : option t :=
  if size <? 0 then None else Some (replicate (Z.to_nat size) 0).

(** [buf.writeUInt8(value, offset)] throws unless the value is a byte and
    the offset inside the buffer. *)
Definition writeUInt8 (value : Z) (offset : nat) (buf : t) : option t :=
  if (0 <=? value) && (value <=? 255) && (offset <? length buf)%nat
  then Some (<[offset := value]> buf) else None.

(** [source.copy(target, targetStart)] copies what fits and returns the
    number of bytes copied. *)
Definition copy (source target : t) (targetStart : nat) : t * nat :=
  let n := Nat.min (length source) (length target - targetStart) in
  (take targetStart target ++ take n source ++ drop (targetStart + n) target, n).

Lemma copy_zeros (written source : t) (k : nat) :
  (length source <= k)%nat ->
  copy source (written ++ replicate k 0) (length written)
  = (written ++ source ++ replicate (k - length source) 0, length source).
Proof.
  intros Hk. unfold copy.
  rewrite length_app, length_replicate.
  replace (length written + k - length written)%nat with k by lia.
  rewrite Nat.min_l by exact Hk.
  rewrite take_app_length, firstn_all, drop_app_add, drop_replicate.
  reflexivity.
Qed.

Lemma writeUInt8_zeros (written : t) (value : Z) (k : nat) :
  0 <= value <= 255 ->
  writeUInt8 value (length written) (written ++ replicate (S k) 0)
  = Some (written ++ value :: replicate k 0).
Proof.
  intros [Hlo Hhi]. unfold writeUInt8.
  rewrite length_app, length_replicate.
  destruct (Z.leb_spec 0 value); [| lia].
  destruct (Z.leb_spec value 255); [| lia].
  destruct (Nat.ltb_spec (length written) (length written + S k)); [| lia].
  cbn [andb]. rewrite insert_app_r_alt by lia. rewrite Nat.sub_diag. reflexivity.
Qed.

(** Neither write changes the size of the buffer written to. *)
Lemma copy_length (source target : t) (targetStart : nat) :
  length (fst (copy source target targetStart)) = length target.
Proof.
  unfold copy. cbn [fst].
  rewrite !length_app, !length_take, length_drop. lia.
Qed.

Lemma writeUInt8_length (value : Z) (offset : nat) (buf buf' : t) :
  writeUInt8 value offset buf = Some buf' -> length buf' = length buf.
Proof.
  unfold writeUInt8.
  destruct ((0 <=? value) && (value <=? 255) && (offset <? length buf)%nat);
    [| discriminate].
  intros [= <-]. apply length_insert.
Qed.

Lemma alloc_length (size : Z) (buf : t) :
  alloc size = Some buf -> Z.of_nat (length buf) = size.
Proof.
  unfold alloc. destruct (Z.ltb_spec size 0); [discriminate |].
  intros [= <-]. rewrite length_replicate. lia.
Qed.

End Buffer.

(** ** Variable-length integers (crypto/vlie.ts) *)

Module VLIE.

(** Modelled from the spec: crypto/vlie.ts is not among the sources; "the
    top two bits of the first byte encode length class (1/2/4/8 bytes);
    the remaining 62 bits hold the value in network order ... the encoder
    emits the smallest sufficient class". *)
Definition encode (value : Bignum.t) : Buffer.t :=
  if value <? 2 ^ 6 then Bignum.toBuffer 1 value
  else if value <? 2 ^ 14 then Bignum.toBuffer 2 (value + 1 * 2 ^ 14)
  else if value <? 2 ^ 30 then Bignum.toBuffer 4 (value + 2 * 2 ^ 30)
  else Bignum.toBuffer 8 (value + 3 * 2 ^ 62).

End VLIE.

(** ** The long header (packet/header/long.header.ts) *)

Module LongHeader.
Import HeaderProperties.

Inductive LongHeaderType : Type := Initial | Retry | Handshake | Protected0RTT.

Definition LongHeaderType_value (type : LongHeaderType) : Z :=
  match type with
  | Initial => 0x7F | Retry => 0x7E | Handshake => 0x7D | Protected0RTT => 0x7C
  end.

Record LongHeader : Type := mkLongHeader {
  getPacketType : Z;
  getPacketNumber : option PacketNumber.PacketNumber;
  getVersion : Version;
  getDestConnectionID : ConnectionID;
  getSrcConnectionID : ConnectionID;
  getPayloadLength : option Bignum.t
}.

(** Modelled from the spec: utilities/validation/version.validation.ts is
    not among the sources; "Version Negotiation is distinguished by
    version == 0". *)
Definition IsVersionNegotationFlag (version : Version) : bool :=
  version_getValue version =? 0.

(** The nibble written for a connection ID of [length] bytes. *)
Definition nibble (length : Z) : Z := if length =? 0 then length else length - 3.

(** [offset += source.copy(buf, offset)] *)
Definition put (source : Buffer.t) (w : Buffer.t * nat) : Buffer.t * nat :=
  let (buf, offset) := w in
  let (buf, copied) := Buffer.copy source buf offset in
  (buf, (offset + copied)%nat).

(** [buf.writeUInt8(value, offset++)] *)
Definition putUInt8 (value : Z) (w : Buffer.t * nat) : option (Buffer.t * nat) :=
  let (buf, offset) := w in
  buf ← Buffer.writeUInt8 value offset buf;
  Some (buf, S offset).

(** A connection ID is empty or of 4 to 18 bytes. *)
Definition valid_length (length : Z) : Prop := length = 0 \/ 4 <= length <= 18.

(** *** Writing into a fresh buffer *)

Lemma put_zeros (written source : Buffer.t) (k : nat) :
  (length source <= k)%nat ->
  put source (written ++ replicate k 0, length written)
  = ((written ++ source) ++ replicate (k - length source) 0,
     length (written ++ source)).
Proof.
  intros Hk. unfold put. rewrite Buffer.copy_zeros by exact Hk.
  rewrite length_app, <- app_assoc. reflexivity.
Qed.

Lemma putUInt8_zeros (written : Buffer.t) (value : Z) (k : nat) :
  0 <= value <= 255 -> (0 < k)%nat ->
  putUInt8 value (written ++ replicate k 0, length written)
  = Some ((written ++ [value]) ++ replicate (k - 1) 0, length (written ++ [value])).
Proof.
  intros Hv Hk. unfold putUInt8.
  destruct k as [| k]; [lia |].
  rewrite Buffer.writeUInt8_zeros by exact Hv. simpl.
  rewrite length_app, <- app_assoc, Nat.sub_0_r, Nat.add_1_r. reflexivity.
Qed.

Lemma small_cases (P : Z -> bool) (n : nat) :
  forallb P (map Z.of_nat (seq 0 n)) = true ->
  forall z, 0 <= z < Z.of_nat n -> P z = true.
Proof.
  intros H z Hz. rewrite forallb_forall in H. apply H.
  apply in_map_iff. exists (Z.to_nat z). split; [lia |].
  apply in_seq. lia.
Qed.

Lemma type_byte (type : Z) : 0 <= type < 128 -> 0x80 + type = Z.lor 0x80 type.
Proof.
  intros H. apply Z.eqb_eq.
  apply (small_cases (fun t => 0x80 + t =? Z.lor 0x80 t) 128); [| lia].
  vm_compute. reflexivity.
Qed.

Lemma nibbles_byte (hi lo : Z) :
  0 <= hi < 16 -> 0 <= lo < 16 ->
  Z.shiftl hi 4 + lo = Z.lor (Z.shiftl hi 4) lo /\
  0 <= Z.shiftl hi 4 + lo <= 255 /\
  (Z.shiftl hi 4 + lo) / 16 = hi /\ (Z.shiftl hi 4 + lo) mod 16 = lo.
Proof.
  intros Hhi Hlo.
  set (Q := fun hi lo =>
              (Z.shiftl hi 4 + lo =? Z.lor (Z.shiftl hi 4) lo)
              && (0 <=? Z.shiftl hi 4 + lo)
              && (Z.shiftl hi 4 + lo <=? 255)
              && ((Z.shiftl hi 4 + lo) / 16 =? hi)
              && ((Z.shiftl hi 4 + lo) mod 16 =? lo)).
  assert (H : forallb (fun hi => forallb (Q hi) (map Z.of_nat (seq 0 16)))
                      (map Z.of_nat (seq 0 16)) = true)
    by (vm_compute; reflexivity).
  pose proof (small_cases (fun hi => forallb (Q hi) (map Z.of_nat (seq 0 16)))
                16 H hi Hhi) as H1.
  cbv beta in H1.
  pose proof (small_cases (Q hi) 16 H1 lo Hlo) as H2. unfold Q in H2.
  repeat (apply andb_prop in H2; destruct H2 as [H2 ?]).
  repeat split; try (apply Z.eqb_eq; assumption); apply Z.leb_le; assumption.
Qed.

Lemma nibble_range (length : Z) : valid_length length -> 0 <= nibble length < 16.
Proof.
  unfold valid_length, nibble. intros [-> | H]; simpl; [lia |].
  destruct (Z.eqb_spec length 0); lia.
Qed.

(** [PacketNumber] (packet/header/header.properties.ts) declares
    [getMostSignificantBytes] and [getLeastSignificantBytes], and no
    [getLeastSignificantBits]: the call that ends [toBuffer] finds no such
    method and throws a TypeError. *)
Definition getLeastSignificantBits (packetNumber : PacketNumber.PacketNumber)
    : option Buffer.t := None.

Section Header.

(** [Constants.LONG_HEADER_PACKET_NUMBER_SIZE] and [VLIE.encode] are
    declared in files that are not among the sources. *)
Variable LONG_HEADER_PACKET_NUMBER_SIZE : Z.
Variable VLIE_encode : Bignum.t -> Buffer.t.

Definition getPacketNumberSize : Z := LONG_HEADER_PACKET_NUMBER_SIZE.

Definition getSize (h : LongHeader) : Z :=
  let size := 6 in
  let size := size + cid_getLength (getDestConnectionID h) in
  let size := size + cid_getLength (getSrcConnectionID h) in
  let size :=
    if negb (IsVersionNegotationFlag (getVersion h))
    then size + getPacketNumberSize else size in
  let size :=
    match getPayloadLength h with
    | Some payloadLength => size + Z.of_nat (length (VLIE_encode payloadLength))
    | None => size
    end in
  size.

Definition toBuffer (h : LongHeader) : option Buffer.t :=
  buf ← Buffer.alloc (getSize h);
  let w := (buf, 0%nat) in
  let type := 0x80 + getPacketType h in
  w ← putUInt8 type w;
  let w := put (version_toBuffer (getVersion h)) w in
  let destLength := nibble (cid_getLength (getDestConnectionID h)) in
  let srcLength := nibble (cid_getLength (getSrcConnectionID h)) in
  w ← putUInt8 (Z.shiftl destLength 4 + srcLength) w;
  let w := put (cid_toBuffer (getDestConnectionID h)) w in
  let w := put (cid_toBuffer (getSrcConnectionID h)) w in
  if negb (IsVersionNegotationFlag (getVersion h)) then
    let w :=
      match getPayloadLength h with
      | Some payloadLength => put (VLIE_encode payloadLength) w
      | None => w
      end in
    packetNumber ← getPacketNumber h;
    packetNumberBuffer ← getLeastSignificantBits packetNumber;
    let w := put packetNumberBuffer w in
    Some (fst w)
  else Some (fst w).

(** The fields every long header starts with. *)
Definition fixed_part (h : LongHeader) : Buffer.t :=
  [Z.lor 0x80 (getPacketType h)]
  ++ version_toBuffer (getVersion h)
  ++ [Z.lor (Z.shiftl (nibble (cid_getLength (getDestConnectionID h))) 4)
            (nibble (cid_getLength (getSrcConnectionID h)))]
  ++ cid_toBuffer (getDestConnectionID h)
  ++ cid_toBuffer (getSrcConnectionID h).

(** The zero bytes left over under the negotiation flag: what [getSize]
    counts for the payload length, which [toBuffer] does not write. *)
Definition slack (h : LongHeader) : nat :=
  if IsVersionNegotationFlag (getVersion h) then
    match getPayloadLength h with
    | Some payloadLength => length (VLIE_encode payloadLength)
    | None => 0%nat
    end
  else 0%nat.

(** A well-formed header: a type below 0x80 and connection IDs of valid
    length. *)
Definition valid (h : LongHeader) : Prop :=
  0 <= getPacketType h < 0x80 /\
  valid_length (cid_getLength (getDestConnectionID h)) /\
  valid_length (cid_getLength (getSrcConnectionID h)).

(** Without the negotiation flag no header gets a buffer: the packet number
    is missing, or the method that should truncate it is. *)
Lemma toBuffer_regular (h : LongHeader) :
  IsVersionNegotationFlag (getVersion h) = false -> toBuffer h = None.
Proof.
  intros Hvn. unfold toBuffer.
  destruct (Buffer.alloc (getSize h)) as [buf0 |]; [| reflexivity].
  cbn [mbind option_bind].
  destruct (putUInt8 (0x80 + getPacketType h) (buf0, 0%nat)) as [w1 |];
    [| reflexivity].
  cbn [mbind option_bind].
  destruct (putUInt8 _ (put _ w1)) as [w3 |]; [| reflexivity].
  cbn [mbind option_bind]. rewrite Hvn. cbn [negb].
  destruct (getPacketNumber h); reflexivity.
Qed.

(** The layout [toBuffer] produces under the negotiation flag: the fixed
    part, then as many zero bytes as [getSize] counted without [toBuffer]
    writing them. *)
Lemma toBuffer_layout (h : LongHeader) :
  valid h ->
  IsVersionNegotationFlag (getVersion h) = true ->
  toBuffer h = Some (fixed_part h ++ replicate (slack h) 0) /\
  Z.of_nat (length (fixed_part h ++ replicate (slack h) 0)) = getSize h.
Proof.
  intros [Htype [Hdest Hsrc]] Hvn.
  pose proof (nibble_range _ Hdest) as Hnd.
  pose proof (nibble_range _ Hsrc) as Hns.
  destruct (nibbles_byte _ _ Hnd Hns) as [Hlor [Hbyte _]].
  assert (Hdl : 0 <= cid_getLength (getDestConnectionID h))
    by (destruct Hdest; lia).
  assert (Hsl : 0 <= cid_getLength (getSrcConnectionID h))
    by (destruct Hsrc; lia).
  assert (Hlen : Z.of_nat (length (fixed_part h ++ replicate (slack h) 0))
                 = getSize h).
  { unfold fixed_part, slack, getSize, getPacketNumberSize,
      version_toBuffer, cid_toBuffer.
    rewrite Hvn. cbn [negb].
    destruct (getPayloadLength h);
      repeat rewrite ?length_app, ?length_cons, ?length_nil, ?length_replicate,
        ?Bignum.length_toBuffer; lia. }
  split; [| exact Hlen].
  unfold toBuffer, Buffer.alloc.
  assert (Hsize : 0 <= getSize h) by lia.
  destruct (Z.ltb_spec (getSize h) 0); [lia |].
  cbn [mbind option_bind].
  rewrite <- Hlen, Nat2Z.id. clear Hlen.
  assert (Hfixed : fixed_part h
                    = [0x80 + getPacketType h]
                      ++ version_toBuffer (getVersion h)
                      ++ [Z.shiftl (nibble (cid_getLength (getDestConnectionID h))) 4
                          + nibble (cid_getLength (getSrcConnectionID h))]
                      ++ cid_toBuffer (getDestConnectionID h)
                      ++ cid_toBuffer (getSrcConnectionID h)).
  { unfold fixed_part. rewrite <- (type_byte _ Htype), <- Hlor. reflexivity. }
  rewrite Hfixed. clear Hfixed.
  set (type := 0x80 + getPacketType h) in *.
  set (lengths := Z.shiftl _ 4 + _) in *.
  set (version := version_toBuffer (getVersion h)).
  set (dest := cid_toBuffer (getDestConnectionID h)).
  set (src := cid_toBuffer (getSrcConnectionID h)).
  repeat rewrite ?length_app, ?length_cons, ?length_nil, ?length_replicate.
  change (replicate ?n 0, 0%nat) with ([] ++ replicate n 0, length (@nil Z)).
  rewrite putUInt8_zeros by (unfold type; lia). cbn [mbind option_bind].
  rewrite put_zeros by lia.
  rewrite putUInt8_zeros by (try exact Hbyte; lia). cbn [mbind option_bind].
  rewrite put_zeros by lia.
  rewrite put_zeros by lia.
  rewrite Hvn. cbn [negb fst].
  f_equal. rewrite <- !app_assoc. cbn [app]. do 5 f_equal.
  f_equal. lia.
Qed.

(** Under the negotiation flag, without a payload length: the fixed part. *)
Lemma toBuffer_negotiation (h : LongHeader) :
  valid h ->
  IsVersionNegotationFlag (getVersion h) = true ->
  getPayloadLength h = None ->
  toBuffer h = Some (fixed_part h).
Proof.
  intros Hv Hvn Hpl. destruct (toBuffer_layout h Hv Hvn) as [-> _].
  unfold slack. rewrite Hvn, Hpl. simpl. rewrite app_nil_r. reflexivity.
Qed.

(** Under the negotiation flag, with a payload length: [getSize] counts
    the encoded payload length, [toBuffer] does not write it, and the
    buffer ends in that many zero bytes. *)
Lemma toBuffer_negotiation_slack (h : LongHeader) (payloadLength : Bignum.t) :
  valid h ->
  IsVersionNegotationFlag (getVersion h) = true ->
  getPayloadLength h = Some payloadLength ->
  toBuffer h = Some (fixed_part h ++ replicate (length (VLIE_encode payloadLength)) 0).
Proof.
  intros Hv Hvn Hpl. destruct (toBuffer_layout h Hv Hvn) as [-> _].
  unfold slack. rewrite Hvn, Hpl. reflexivity.
Qed.

(** *** Size, places and refusals *)

Lemma put_length (source : Buffer.t) (w : Buffer.t * nat) :
  length (fst (put source w)) = length (fst w).
Proof.
  destruct w as [buf offset]. unfold put.
  pose proof (Buffer.copy_length source buf offset) as H.
  destruct (Buffer.copy source buf offset) as [buf' copied]. exact H.
Qed.

Lemma putUInt8_length (value : Z) (w w' : Buffer.t * nat) :
  putUInt8 value w = Some w' -> length (fst w') = length (fst w).
Proof.
  destruct w as [buf offset]. unfold putUInt8.
  destruct (Buffer.writeUInt8 value offset buf) as [buf' |] eqn:Hw; [| discriminate].
  cbn [mbind option_bind]. intros [= <-].
  exact (Buffer.writeUInt8_length _ _ _ _ Hw).
Qed.

(** X18: whenever [toBuffer] returns, the buffer has exactly [getSize()]
    bytes, for every header, well formed or not: no write enlarges or
    shortens the buffer allocated at the start. *)
Theorem toBuffer_length (h : LongHeader) (buf : Buffer.t) :
  toBuffer h = Some buf -> Z.of_nat (length buf) = getSize h.
Proof.
  unfold toBuffer.
  destruct (Buffer.alloc (getSize h)) as [buf0 |] eqn:Ha; [| discriminate].
  apply Buffer.alloc_length in Ha. cbn [mbind option_bind].
  destruct (putUInt8 (0x80 + getPacketType h) (buf0, 0%nat)) as [w1 |] eqn:H1;
    [| discriminate].
  apply putUInt8_length in H1. cbn [mbind option_bind fst] in H1 |- *.
  set (w2 := put (version_toBuffer (getVersion h)) w1).
  assert (H2 : length (fst w2) = length buf0)
    by (unfold w2; rewrite put_length; exact H1).
  destruct (putUInt8 _ w2) as [w3 |] eqn:H3; [| discriminate].
  apply putUInt8_length in H3. cbn [mbind option_bind].
  set (w4 := put (cid_toBuffer (getDestConnectionID h)) w3).
  set (w5 := put (cid_toBuffer (getSrcConnectionID h)) w4).
  assert (H5 : length (fst w5) = length buf0)
    by (unfold w5, w4; rewrite !put_length; congruence).
  destruct (negb (IsVersionNegotationFlag (getVersion h))).
  - destruct (getPacketNumber h) as [pn |]; cbn [mbind option_bind];
      [| discriminate].
    unfold getLeastSignificantBits. cbn [mbind option_bind]. discriminate.
  - intros [= <-]. rewrite H5. exact Ha.
Qed.

Lemma layout_fields (type lengths : Z) (version dest src rest : list Z) :
  length version = 4%nat ->
  let buf := [type] ++ version ++ [lengths] ++ dest ++ src ++ rest in
  buf !! 0%nat = Some type /\
  take 4 (drop 1 buf) = version /\
  buf !! 5%nat = Some lengths /\
  take (length dest) (drop 6 buf) = dest /\
  take (length src) (drop (6 + length dest) buf) = src.
Proof.
  intros Hv buf. subst buf.
  destruct version as [| a [| b [| c [| d [| ? ?]]]]]; try discriminate.
  cbn [app drop take lookup list_lookup Nat.add].
  split; [reflexivity |]. split; [reflexivity |]. split; [reflexivity |].
  split.
  - apply take_app_length.
  - rewrite drop_app_length. apply take_app_length.
Qed.

(** X19: which well-formed headers get a buffer, and where their fields
    are.  Under the version negotiation flag [toBuffer] returns: byte 0
    is 0x80 plus the packet type, bytes 1 to 4 are the version, byte 5
    holds the two length nibbles (destination high, source low), then
    come the destination and the source connection ID, each in its own
    length.  Without the flag it returns nothing: it throws where it
    should write the packet number.  The nibble tells the length: no two
    valid lengths share one. *)
Theorem toBuffer_fields (h : LongHeader) :
  valid h ->
  let dcil := Z.to_nat (cid_getLength (getDestConnectionID h)) in
  let scil := Z.to_nat (cid_getLength (getSrcConnectionID h)) in
  (IsVersionNegotationFlag (getVersion h) = true ->
   exists buf lengths,
     toBuffer h = Some buf /\
     buf !! 0%nat = Some (0x80 + getPacketType h) /\
     take 4 (drop 1 buf) = version_toBuffer (getVersion h) /\
     buf !! 5%nat = Some lengths /\
     lengths / 16 = nibble (cid_getLength (getDestConnectionID h)) /\
     lengths mod 16 = nibble (cid_getLength (getSrcConnectionID h)) /\
     take dcil (drop 6 buf) = cid_toBuffer (getDestConnectionID h) /\
     take scil (drop (6 + dcil) buf) = cid_toBuffer (getSrcConnectionID h)) /\
  (IsVersionNegotationFlag (getVersion h) = false -> toBuffer h = None) /\
  (forall a b, valid_length a -> valid_length b -> nibble a = nibble b -> a = b).
Proof.
  intros Hv dcil scil. split; [| split].
  - intros Hvn. destruct (toBuffer_layout h Hv Hvn) as [Hbuf _].
    destruct Hv as [Htype [Hdest Hsrc]].
    destruct (nibbles_byte _ _ (nibble_range _ Hdest) (nibble_range _ Hsrc))
      as [Hlor [_ [Hhi Hlo]]].
    eexists. exists (Z.shiftl (nibble (cid_getLength (getDestConnectionID h))) 4
                     + nibble (cid_getLength (getSrcConnectionID h))).
    split; [exact Hbuf |].
    unfold fixed_part. rewrite <- (type_byte _ Htype), <- Hlor.
    rewrite <- !app_assoc.
    pose proof (layout_fields (0x80 + getPacketType h)
                  (Z.shiftl (nibble (cid_getLength (getDestConnectionID h))) 4
                   + nibble (cid_getLength (getSrcConnectionID h)))
                  (version_toBuffer (getVersion h))
                  (cid_toBuffer (getDestConnectionID h))
                  (cid_toBuffer (getSrcConnectionID h))
                  (replicate (slack h) 0)
                  (Bignum.length_toBuffer 4 _)) as H.
    cbv zeta in H.
    assert (Hdl : length (cid_toBuffer (getDestConnectionID h)) = dcil)
      by apply Bignum.length_toBuffer.
    assert (Hsl : length (cid_toBuffer (getSrcConnectionID h)) = scil)
      by apply Bignum.length_toBuffer.
    rewrite Hdl, Hsl in H.
    destruct H as [H0 [H1 [H5 [Hd Hs]]]].
    repeat split; assumption.
  - apply toBuffer_regular.
  - intros a b Ha Hb. unfold valid_length, nibble in *.
    destruct (Z.eqb_spec a 0), (Z.eqb_spec b 0); lia.
Qed.

(** X20: what [toBuffer] refuses.  It throws, and returns no buffer, when
    the packet type does not fit the seven low bits of the first byte,
    and when the header is not a version negotiation and has no packet
    number to write. *)
Theorem toBuffer_throws (h : LongHeader) :
  getPacketType h < -0x80 \/ 0x80 <= getPacketType h \/
  (IsVersionNegotationFlag (getVersion h) = false /\ getPacketNumber h = None) ->
  toBuffer h = None.
Proof.
  intros H. unfold toBuffer.
  destruct (Buffer.alloc (getSize h)) as [buf0 |]; [| reflexivity].
  cbn [mbind option_bind].
  destruct (putUInt8 (0x80 + getPacketType h) (buf0, 0%nat)) as [w1 |] eqn:H1.
  - cbn [mbind option_bind].
    destruct (putUInt8 _ (put _ w1)) as [w3 |]; [| reflexivity].
    cbn [mbind option_bind].
    destruct H as [H | [H | [Hvn Hpn]]].
    + exfalso. unfold putUInt8, Buffer.writeUInt8 in H1.
      destruct (Z.leb_spec 0 (0x80 + getPacketType h)); [lia |].
      cbn [andb] in H1. discriminate.
    + exfalso. unfold putUInt8, Buffer.writeUInt8 in H1.
      destruct (Z.leb_spec (0x80 + getPacketType h) 255); [lia |].
      rewrite andb_false_r in H1. cbn [andb] in H1. discriminate.
    + rewrite Hvn, Hpn. reflexivity.
  - reflexivity.
Qed.

End Header.

(** *** Two headers *)

(** An Initial packet of version 0xff00000c, packet number 0xa82f9b32,
    1200 bytes of payload, from an endpoint without connection ID: 20
    bytes by [getSize], and no buffer. *)
Definition initial : LongHeader :=
  mkLongHeader (LongHeaderType_value Initial)
    (Some (PacketNumber.mkPacketNumber 0xa82f9b32)) (mkVersion 0xff00000c)
    (mkConnectionID 0x8394c8f03e515708 8) (mkConnectionID 0 0) (Some 1200).

Lemma toBuffer_initial :
  toBuffer 4 VLIE.encode initial = None /\
  getSize 4 VLIE.encode initial = 20.
Proof. split; vm_compute; reflexivity. Qed.

(** The same header under the version negotiation flag. *)
Definition negotiation : LongHeader :=
  mkLongHeader (LongHeaderType_value Initial)
    (Some (PacketNumber.mkPacketNumber 0xa82f9b32)) (mkVersion 0)
    (mkConnectionID 0x8394c8f03e515708 8) (mkConnectionID 0 0) (Some 1200).

(** C8 (the code departs from the claim): under the negotiation flag
    nothing should follow the connection IDs, and the fixed part is 14 bytes;
    [getSize] still counts the two bytes of the encoded payload length,
    and [toBuffer] returns 16 bytes, the last two zero. *)
Theorem toBuffer_negotiation_padding :
  fixed_part negotiation
  = [0xff; 0x00; 0x00; 0x00; 0x00; 0x50;
     0x83; 0x94; 0xc8; 0xf0; 0x3e; 0x51; 0x57; 0x08] /\
  getSize 4 VLIE.encode negotiation = 16 /\
  toBuffer 4 VLIE.encode negotiation
  = Some [0xff; 0x00; 0x00; 0x00; 0x00; 0x50;
          0x83; 0x94; 0xc8; 0xf0; 0x3e; 0x51; 0x57; 0x08;
          0x00; 0x00].
Proof. repeat split; vm_compute; reflexivity. Qed.

Lemma toBuffer_length_witness :
  Z.of_nat (length [0xff; 0x00; 0x00; 0x00; 0x00; 0x50;
                    0x83; 0x94; 0xc8; 0xf0; 0x3e; 0x51; 0x57; 0x08;
                    0x00; 0x00])
  = getSize 4 VLIE.encode negotiation.
Proof.
  apply (toBuffer_length 4 VLIE.encode negotiation).
  vm_compute. reflexivity.
Defined.

Lemma negotiation_valid : valid negotiation.
Proof.
  split; [vm_compute; split; [discriminate | reflexivity] |].
  split; [right; vm_compute; split; discriminate | left; reflexivity].
Qed.

Lemma toBuffer_fields_witness :
  (IsVersionNegotationFlag (getVersion negotiation) = true ->
   exists buf lengths,
     toBuffer 4 VLIE.encode negotiation = Some buf /\
     buf !! 0%nat = Some (0x80 + getPacketType negotiation) /\
     take 4 (drop 1 buf) = version_toBuffer (getVersion negotiation) /\
     buf !! 5%nat = Some lengths /\
     lengths / 16 = nibble (cid_getLength (getDestConnectionID negotiation)) /\
     lengths mod 16 = nibble (cid_getLength (getSrcConnectionID negotiation)) /\
     take 8 (drop 6 buf) = cid_toBuffer (getDestConnectionID negotiation) /\
     take 0 (drop (6 + 8) buf) = cid_toBuffer (getSrcConnectionID negotiation)) /\
  (IsVersionNegotationFlag (getVersion negotiation) = false ->
   toBuffer 4 VLIE.encode negotiation = None) /\
  (forall a b, valid_length a -> valid_length b -> nibble a = nibble b -> a = b).
Proof. exact (toBuffer_fields 4 VLIE.encode negotiation negotiation_valid). Defined.

(** A Handshake header whose packet number has not been set. *)
Definition unnumbered : LongHeader :=
  mkLongHeader (LongHeaderType_value Handshake) None (mkVersion 0xff00000c)
    (mkConnectionID 0x8394c8f03e515708 8) (mkConnectionID 0 0) (Some 1200).

Lemma toBuffer_throws_witness :
  toBuffer 4 VLIE.encode unnumbered = None.
Proof.
  apply (toBuffer_throws 4 VLIE.encode unnumbered).
  right. right. split; reflexivity.
Defined.

End LongHeader.

(** ** The alarm (types/alarm.ts) *)

Module Alarm.

(** A handle returned by [setTimeout]. *)
Definition Timer : Type := nat.

(** The alarm object: [timer] is undefined until the first [start]. *)
Record Alarm : Type := mkAlarm {
  timer : option Timer;
  running : bool
}.

(** The alarm in its environment: the timeouts Node holds armed for it
    (handle and delay), the next handle [setTimeout] gives out, and the
    number of TIMEOUT events emitted so far. *)
Record World : Type := mkWorld {
  alarm : Alarm;
  armed : list (Timer * Z);
  fresh : Timer;
  emitted : nat
}.

Definition new : World := mkWorld (mkAlarm None false) [] 0%nat 0%nat.

Definition isRunning (w : World) : bool := running (alarm w).

(** [clearTimeout(timer)]: the timeout with that handle is dropped;
    clearing an undefined or spent handle does nothing. *)
Definition clearTimeout (t : option Timer) (l : list (Timer * Z)) : list (Timer * Z) :=
  match t with
  | Some h => List.filter (fun e => negb (Nat.eqb (fst e) h)) l
  | None => l
  end.

Definition reset (w : World) : World :=
  if negb (isRunning w) then w
  else
    mkWorld (mkAlarm (timer (alarm w)) false)
            (clearTimeout (timer (alarm w)) (armed w))
            (fresh w) (emitted w).

Definition start (timeInMs : Z) (w : World) : World :=
  if isRunning w then w
  else
    mkWorld (mkAlarm (Some (fresh w)) true)
            (armed w ++ [(fresh w, timeInMs)])
            (S (fresh w)) (emitted w).

Definition onTimeout (w : World) : World :=
  if isRunning w then
    mkWorld (mkAlarm (timer (alarm w)) false) (armed w) (fresh w) (S (emitted w))
  else w.

Definition is_armed (h : Timer) (w : World) : bool :=
  existsb (fun e => Nat.eqb (fst e) h) (armed w).

(** The timeout with handle [h] expires: Node forgets it and runs its
    callback, which calls [onTimeout].  A timeout that is not armed does
    not expire. *)
Definition expire (h : Timer) (w : World) : World :=
  if is_armed h w then
    onTimeout (mkWorld (alarm w) (clearTimeout (Some h) (armed w)) (fresh w) (emitted w))
  else w.

Inductive Step : Type :=
| Start (timeInMs : Z)
| Reset
| Expire (h : Timer).

Definition step (w : World) (s : Step) : World :=
  match s with
  | Start timeInMs => start timeInMs w
  | Reset => reset w
  | Expire h => expire h w
  end.

Definition run (w : World) (steps : list Step) : World := fold_left step steps w.

Definition isStart (s : Step) : bool :=
  match s with Start _ => true | _ => false end.

Inductive reachable : World -> Prop :=
| reach_new : reachable new
| reach_step w s : reachable w -> reachable (step w s).

(** What holds of every state: the handles armed are below [fresh]; while
    running exactly the alarm's own timeout is armed, otherwise none. *)
Definition inv (w : World) : Prop :=
  if running (alarm w)
  then exists h timeInMs,
         timer (alarm w) = Some h /\ armed w = [(h, timeInMs)] /\ (h < fresh w)%nat
  else armed w = [].

Lemma alarm_inv_new : inv new.
Proof. reflexivity. Qed.

Lemma alarm_inv_step (w : World) (s : Step) : inv w -> inv (step w s).
Proof.
  unfold inv. intros H. destruct w as [[t r] l f e]. simpl in H.
  destruct s as [timeInMs | | h]; simpl.
  - unfold start, isRunning. simpl. destruct r; simpl; [exact H |].
    subst l. exists f, timeInMs. simpl. auto.
  - unfold reset, isRunning. simpl. destruct r; simpl; [| exact H].
    destruct H as [h [timeInMs [-> [-> Hf]]]]. simpl.
    rewrite Nat.eqb_refl. reflexivity.
  - unfold expire, is_armed. simpl. destruct r; simpl in *.
    + destruct H as [h' [timeInMs [-> [-> Hf]]]]. simpl.
      rewrite orb_false_r.
      destruct (Nat.eqb h' h) eqn:Heq; simpl.
      * unfold onTimeout, isRunning. simpl. rewrite ?Heq. reflexivity.
      * exists h', timeInMs. auto.
    + subst l. simpl. reflexivity.
Qed.

Lemma alarm_reachable_inv (w : World) : reachable w -> inv w.
Proof.
  induction 1 as [| w s _ IH]; [exact alarm_inv_new | exact (alarm_inv_step w s IH)].
Qed.

(** While the alarm is not running, only [start] changes anything. *)
Lemma idle_step (w : World) (s : Step) :
  inv w -> running (alarm w) = false -> isStart s = false -> step w s = w.
Proof.
  unfold inv. intros H Hr Hs. rewrite Hr in H.
  destruct s as [timeInMs | | h]; simpl in *; [discriminate | |].
  - unfold reset, isRunning. rewrite Hr. reflexivity.
  - unfold expire, is_armed. rewrite H. reflexivity.
Qed.

Lemma idle_run (steps : list Step) (w : World) :
  inv w -> running (alarm w) = false -> forallb (fun s => negb (isStart s)) steps = true ->
  run w steps = w.
Proof.
  induction steps as [| s steps IH]; intros H Hr Hs; simpl in *; [reflexivity |].
  apply andb_prop in Hs. destruct Hs as [Hs1 Hs2].
  apply negb_true_iff in Hs1.
  rewrite (idle_step w s H Hr Hs1). apply IH; assumption.
Qed.

(** C9: the alarm is single-shot and its controls do nothing in the
    wrong state.  [reset] on an alarm that is not running leaves
    everything as it was; [start] on a running alarm leaves the pending
    timeout as it was, so arming twice is arming once; when the armed
    timeout of a reachable state expires, exactly one TIMEOUT is
    emitted, the alarm is left not running with nothing armed, and
    whatever follows short of a new [start] emits nothing more. *)
Theorem alarm_single_shot :
  (forall w, isRunning w = false -> reset w = w) /\
  (forall timeInMs w, isRunning w = true -> start timeInMs w = w) /\
  (forall timeInMs timeInMs' w,
     start timeInMs' (start timeInMs w) = start timeInMs w) /\
  (forall w h,
     reachable w -> is_armed h w = true ->
     let w' := expire h w in
     emitted w' = S (emitted w) /\
     isRunning w' = false /\
     armed w' = [] /\
     forall steps,
       forallb (fun s => negb (isStart s)) steps = true ->
       run w' steps = w') /\
  (forall w h, reachable w -> isRunning w = false -> expire h w = w).
Proof.
  split; [| split; [| split; [| split]]].
  - intros w Hr. unfold reset. rewrite Hr. reflexivity.
  - intros timeInMs w Hr. unfold start. rewrite Hr. reflexivity.
  - intros timeInMs timeInMs' w.
    assert (Hr : isRunning (start timeInMs w) = true).
    { unfold start. destruct (isRunning w) eqn:Hr; [exact Hr | reflexivity]. }
    unfold start at 1. rewrite Hr. reflexivity.
  - intros w h Hreach Harmed.
    pose proof (alarm_reachable_inv w Hreach) as Hinv.
    pose proof (alarm_inv_step w (Expire h) Hinv) as Hinv'. simpl in Hinv'.
    unfold inv in Hinv. unfold is_armed in Harmed.
    destruct w as [[t r] l f e]. simpl in *.
    destruct r.
    + destruct Hinv as [h' [timeInMs [-> [-> Hf]]]]. simpl in Harmed.
      rewrite orb_false_r in Harmed.
      assert (Hw : expire h (mkWorld (mkAlarm (Some h') true) [(h', timeInMs)] f e)
                   = mkWorld (mkAlarm (Some h') false) [] f (S e)).
      { unfold expire, is_armed, onTimeout, isRunning. simpl.
        rewrite Harmed. simpl. reflexivity. }
      rewrite Hw in *. simpl.
      repeat split.
      intros steps Hsteps. apply idle_run; [exact Hinv' | reflexivity | exact Hsteps].
    + subst l. simpl in Harmed. discriminate.
  - intros w h Hreach Hr.
    apply (idle_step w (Expire h)); [apply alarm_reachable_inv; exact Hreach | exact Hr | reflexivity].
Qed.

Lemma alarm_single_shot_witness :
  let w := run new [Start 25; Start 25; Reset; Start 40] in
  let w' := expire 1%nat w in
  emitted w' = S (emitted w) /\
  isRunning w' = false /\
  armed w' = [] /\
  forall steps,
    forallb (fun s => negb (isStart s)) steps = true ->
    run w' steps = w'.
Proof.
  apply (proj1 (proj2 (proj2 (proj2 alarm_single_shot)))).
  - change (reachable
              (step (step (step (step new (Start 25)) (Start 25)) Reset) (Start 40))).
    repeat apply reach_step. apply reach_new.
  - reflexivity.
Defined.

(** Arm, arm again, let it expire, then two stray expiries and a reset:
    one TIMEOUT. *)
Lemma one_timeout :
  emitted (run new [Start 25; Start 25; Expire 0%nat; Expire 0%nat; Reset; Expire 1%nat])
  = 1%nat.
Proof. reflexivity. Qed.

(** *** Counting timeouts *)

Definition starts (steps : list Step) : nat :=
  length (List.filter isStart steps).

(** One for a running alarm: the TIMEOUT it may still emit. *)
Definition pending (w : World) : nat := if isRunning w then 1%nat else 0%nat.

Lemma step_budget (w : World) (s : Step) :
  (emitted (step w s) + pending (step w s)
   <= emitted w + pending w + (if isStart s then 1 else 0))%nat.
Proof.
  destruct w as [[t r] l f e].
  destruct s as [timeInMs | | h]; cbn [step isStart].
  - unfold start, pending, isRunning. cbn. destruct r; cbn; lia.
  - unfold reset, pending, isRunning. cbn. destruct r; cbn; lia.
  - unfold expire.
    destruct (is_armed h (mkWorld (mkAlarm t r) l f e));
      unfold onTimeout, pending, isRunning; cbn; destruct r; cbn; lia.
Qed.

(** X21: no more TIMEOUT events than starts.  Over any run of starts,
    resets and expiries, from any state, the events emitted, plus one
    if the alarm is left running, exceed what was there before by at
    most the number of [start] calls in the run. *)
Theorem timeouts_bounded_by_starts (steps : list Step) (w : World) :
  (emitted (run w steps) + pending (run w steps)
   <= emitted w + pending w + starts steps)%nat.
Proof.
  revert w. induction steps as [| s steps IH]; intros w.
  - cbn. lia.
  - change (run w (s :: steps)) with (run (step w s) steps).
    specialize (IH (step w s)). pose proof (step_budget w s) as Hs.
    unfold starts in *. cbn [List.filter].
    destruct (isStart s); cbn [length]; lia.
Qed.

(** X22: a reset cancels the timeout.  After [reset] in any state the
    alarm goes through, nothing is armed, the alarm is not running, and
    whatever follows short of a new [start], expiries of old handles
    among it, changes nothing and emits nothing. *)
Theorem reset_cancels (w : World) (steps : list Step) :
  reachable w ->
  forallb (fun s => negb (isStart s)) steps = true ->
  armed (reset w) = [] /\
  isRunning (reset w) = false /\
  run (reset w) steps = reset w /\
  emitted (run (reset w) steps) = emitted w.
Proof.
  intros Hreach Hsteps.
  pose proof (alarm_inv_step w Reset (alarm_reachable_inv w Hreach)) as Hinv.
  cbn [step] in Hinv.
  assert (Hr : running (alarm (reset w)) = false).
  { unfold reset, isRunning. destruct (running (alarm w)) eqn:Hrun; cbn; [reflexivity |].
    exact Hrun. }
  assert (He : emitted (reset w) = emitted w).
  { unfold reset. destruct (negb (isRunning w)); reflexivity. }
  rewrite (idle_run steps (reset w) Hinv Hr Hsteps).
  split; [| split; [exact Hr | split; [reflexivity | exact He]]].
  unfold inv in Hinv. rewrite Hr in Hinv. exact Hinv.
Qed.

Lemma reset_cancels_witness :
  let w := run new [Start 25; Reset; Start 40] in
  armed (reset w) = [] /\
  isRunning (reset w) = false /\
  run (reset w) [Expire 0%nat; Expire 1%nat; Reset; Expire 1%nat] = reset w /\
  emitted (run (reset w) [Expire 0%nat; Expire 1%nat; Reset; Expire 1%nat]) = emitted w.
Proof.
  apply (reset_cancels (run new [Start 25; Reset; Start 40])).
  - change (reachable (step (step (step new (Start 25)) Reset) (Start 40))).
    repeat apply reach_step. apply reach_new.
  - reflexivity.
Defined.

(** X23: timeouts do not pile up.  In every state the alarm goes through
    at most one timeout is armed, one is armed exactly while the alarm
    is running, and it is the one whose handle the alarm keeps. *)
Theorem at_most_one_armed (w : World) :
  reachable w ->
  (length (armed w) <= 1)%nat /\
  (isRunning w = true <-> armed w <> []) /\
  (forall h timeInMs, In (h, timeInMs) (armed w) -> timer (alarm w) = Some h).
Proof.
  intros Hreach. pose proof (alarm_reachable_inv w Hreach) as Hinv.
  unfold inv in Hinv. unfold isRunning.
  destruct (running (alarm w)).
  - destruct Hinv as [h [timeInMs [Ht [Ha _]]]]. rewrite Ha, Ht. cbn.
    split; [lia |]. split; [split; [discriminate | reflexivity] |].
    intros h' t' [[= <- _] | []]. reflexivity.
  - rewrite Hinv. cbn.
    split; [lia |]. split; [split; [discriminate | congruence] |].
    intros h' t' [].
Qed.

Lemma at_most_one_armed_witness :
  let w := run new [Start 25; Reset; Start 40; Start 10] in
  (length (armed w) <= 1)%nat /\
  (isRunning w = true <-> armed w <> []) /\
  (forall h timeInMs, In (h, timeInMs) (armed w) -> timer (alarm w) = Some h).
Proof.
  apply (at_most_one_armed (run new [Start 25; Reset; Start 40; Start 10])).
  change (reachable (step (step (step (step new (Start 25)) Reset) (Start 40)) (Start 10))).
  repeat apply reach_step. apply reach_new.
Defined.

End Alarm.

(** ** Coalesced datagrams (congestion-control/congestion.control.ts) *)

Module CoalescedPackets.

Section Coalescing.

(** [BasePacket.toBuffer(connection)] is in packet/base.packet.ts, which
    is not among the sources: the bytes of a packet are whatever it
    returns. *)
Variable toBuffer : CongestionControl.BasePacket -> Buffer.t.

(** The body of the [forEach] of [coalescedPacketsToBuffer], on the
    buffer and [offset]: the offset moves on by the length of the packet,
    copied in full or not. *)
Definition coalesce (w : Buffer.t * nat) (packet : CongestionControl.BasePacket)
    : Buffer.t * nat :=
  let (buf, offset) := w in
  let packetBuffer := toBuffer packet in
  (fst (Buffer.copy packetBuffer buf offset), (offset + length packetBuffer)%nat).

Definition coalescedPacketsToBuffer (size : Z) (packets : list CongestionControl.BasePacket)
    : option Buffer.t :=
  buf ← Buffer.alloc size;
  Some (fst (fold_left coalesce packets (buf, 0%nat))).

Lemma copy_take (n : nat) (written source : Buffer.t) :
  fst (Buffer.copy source (take n (written ++ replicate n 0)) (length written))
  = take n ((written ++ source) ++ replicate n 0).
Proof.
  destruct (Nat.le_gt_cases n (length written)) as [Hfull | Hroom].
  - rewrite <- app_assoc. rewrite !take_app_le by exact Hfull.
    unfold Buffer.copy. cbn [fst]. rewrite length_take.
    replace (Nat.min n (length written) - length written)%nat with 0%nat by lia.
    rewrite Nat.min_0_r, Nat.add_0_r. cbn [take app].
    rewrite take_take, drop_ge by (rewrite length_take; lia).
    rewrite app_nil_r. f_equal. lia.
  - rewrite (take_app_ge written) by lia. rewrite take_replicate.
    replace (Nat.min (n - length written) n) with (n - length written)%nat by lia.
    destruct (Nat.le_gt_cases (length source) (n - length written)) as [Hfits | Hcut].
    + rewrite Buffer.copy_zeros by exact Hfits. cbn [fst].
      rewrite take_app_ge by (rewrite length_app; lia).
      rewrite take_replicate, length_app, <- app_assoc. do 3 f_equal. lia.
    + unfold Buffer.copy. cbn [fst].
      rewrite length_app, length_replicate.
      replace (length written + (n - length written) - length written)%nat
        with (n - length written)%nat by lia.
      rewrite Nat.min_r by lia.
      rewrite take_app_length.
      rewrite drop_ge by (rewrite length_app, length_replicate; lia).
      rewrite app_nil_r.
      rewrite (take_app_le (written ++ source)) by (rewrite length_app; lia).
      rewrite take_app_ge by lia. reflexivity.
Qed.

Lemma coalesce_fold (n : nat) (packets : list CongestionControl.BasePacket)
    (written : Buffer.t) :
  fst (fold_left coalesce packets
         (take n (written ++ replicate n 0), length written))
  = take n ((written ++ concat (map toBuffer packets)) ++ replicate n 0).
Proof.
  revert written. induction packets as [| packet packets IH]; intros written.
  - cbn. rewrite app_nil_r. reflexivity.
  - cbn [fold_left coalesce map concat].
    rewrite copy_take, <- length_app, IH. rewrite <- (app_assoc written). reflexivity.
Qed.

(** X24: the datagram [coalescedPacketsToBuffer] builds is the packets'
    buffers one after the other, cut or filled with zero bytes to the
    size asked for; asked for the sum of their lengths, it is exactly the
    packets one after the other.  A packet that does not fit is cut, not
    refused. *)
Theorem coalescedPacketsToBuffer_concat (packets : list CongestionControl.BasePacket) :
  let datagram := concat (map toBuffer packets) in
  (forall n : nat,
     coalescedPacketsToBuffer (Z.of_nat n) packets
     = Some (take n (datagram ++ replicate n 0))) /\
  coalescedPacketsToBuffer (Z.of_nat (length datagram)) packets = Some datagram.
Proof.
  intros datagram.
  assert (H : forall n : nat,
             coalescedPacketsToBuffer (Z.of_nat n) packets
             = Some (take n (datagram ++ replicate n 0))).
  { intros n. unfold coalescedPacketsToBuffer, Buffer.alloc.
    destruct (Z.ltb_spec (Z.of_nat n) 0); [lia |].
    rewrite Nat2Z.id. cbn [mbind option_bind]. f_equal.
    pose proof (coalesce_fold n packets []) as Hf.
    rewrite take_ge in Hf by (cbn; rewrite length_replicate; lia).
    exact Hf. }
  split; [exact H |].
  rewrite H, take_app_length. reflexivity.
Qed.

End Coalescing.

End CoalescedPackets.
